(** * clang-tidy runner (run.py): a bounded-concurrency process scheduler

    Shallow embedding of [src/clang-tidy/run.py].  Python integers are [Z],
    Python [str] values are lists of Unicode code points, [bytes] are lists
    of [Byte.byte].  The operating system (child processes, their capture
    files, the clock, the two output streams) is an explicit [World] that
    the program threads through a small state-and-exception monad. *)

From Stdlib Require Import Strings.Byte.
From Stdlib Require Import Strings.Ascii Strings.String.
From stdpp Require Import base numbers option list.

Local Open Scope Z_scope.

(** ** Exit-code merge rule *)

(** [worst_exit_code(worst, cur)], run.py lines 72-89.  Python's [min] and
    [max] on two integers are [Z.min] and [Z.max]. *)
Definition worst_exit_code (worst cur : Z) : Z :=
  if cur <? 0 then
    (* Negative results take precedence, return the minimum *)
    Z.min worst cur
  else if worst <? 0 then
    (* We know cur is non-negative, negative worst must be minimum *)
    worst
  else
    (* We know neither are negative, return the maximum *)
    Z.max worst cur.

(** The accumulator of [execute]: [exit_code = 0], then one
    [exit_code = worst_exit_code(exit_code, rc)] per drained process. *)
Definition fold_exit_codes (codes : list Z) : Z :=
  fold_left worst_exit_code codes 0.


(** ** Python values *)

(** A Python [str] is a sequence of Unicode code points; [bytes] is a
    sequence of octets. *)
Definition str := list N.
Definition bytes := list byte.

(** ASCII literals of the source text. *)
Definition lit (s : string) : str :=
  map N_of_ascii (list_ascii_of_string s).

(** Truthiness of a value that is either [None] or a [str]: [None] and the
    empty string are falsy, every other string is truthy. *)
Definition truthy (v : option str) : bool :=
  match v with
  | Some (_ :: _) => true
  | _ => false
  end.

(** [sep.join(parts)] *)
Fixpoint join (sep : str) (parts : list str) : str :=
  match parts with
  | [] => []
  | [p] => p
  | p :: rest => p ++ sep ++ join sep rest
  end.

Definition str_eqb (a b : str) : bool := bool_decide (a = b).

(** [s.startswith(prefix)] and [s.endswith(suffix)] *)
Definition startswith (s prefix : str) : bool :=
  str_eqb (take (length prefix) s) prefix.
Definition endswith (s suffix : str) : bool :=
  (length suffix <=? length s)%nat
  && str_eqb (drop (length s - length suffix) s) suffix.

(** [lst[:c]] and [lst[c:]] for a Python integer [c]: a negative index
    counts from the end, and every index is clipped to the list. *)
Definition slice_index (len : nat) (c : Z) : nat :=
  if c <? 0 then Z.to_nat (Z.max 0 (Z.of_nat len + c))
  else Z.to_nat (Z.min c (Z.of_nat len)).
Definition slice_to {A} (c : Z) (l : list A) : list A :=
  take (slice_index (length l) c) l.
Definition slice_from {A} (c : Z) (l : list A) : list A :=
  drop (slice_index (length l) c) l.

(** *** [bytes.decode("utf-8")]

    The strict UTF-8 decoder: shortest forms only, no surrogates, nothing
    above U+10FFFF.  [None] stands for [UnicodeDecodeError]. *)
Definition in_range (lo hi b : N) : bool := ((lo <=? b) && (b <=? hi))%N.
Definition continuation (b : N) : bool := in_range 0x80 0xBF b.
Definition low6 (b : N) : N := N.land b 0x3F.

Fixpoint utf8_decode_N (bs : list N) : option str :=
  match bs with
  | [] => Some []
  | b0 :: t0 =>
    if (b0 <? 0x80)%N then
      cons b0 <$> utf8_decode_N t0
    else if in_range 0xC2 0xDF b0 then
      match t0 with
      | b1 :: t1 =>
        if continuation b1 then
          cons (N.lor (N.shiftl (N.land b0 0x1F) 6) (low6 b1))
            <$> utf8_decode_N t1
        else None
      | _ => None
      end
    else if in_range 0xE0 0xEF b0 then
      match t0 with
      | b1 :: b2 :: t2 =>
        let lo := if (b0 =? 0xE0)%N then 0xA0%N else 0x80%N in
        let hi := if (b0 =? 0xED)%N then 0x9F%N else 0xBF%N in
        if in_range lo hi b1 && continuation b2 then
          cons (N.lor (N.shiftl (N.land b0 0x0F) 12)
                  (N.lor (N.shiftl (low6 b1) 6) (low6 b2)))
            <$> utf8_decode_N t2
        else None
      | _ => None
      end
    else if in_range 0xF0 0xF4 b0 then
      match t0 with
      | b1 :: b2 :: b3 :: t3 =>
        let lo := if (b0 =? 0xF0)%N then 0x90%N else 0x80%N in
        let hi := if (b0 =? 0xF4)%N then 0x8F%N else 0xBF%N in
        if in_range lo hi b1 && continuation b2 && continuation b3 then
          cons (N.lor (N.shiftl (N.land b0 0x07) 18)
                  (N.lor (N.shiftl (low6 b1) 12)
                     (N.lor (N.shiftl (low6 b2) 6) (low6 b3))))
            <$> utf8_decode_N t3
        else None
      | _ => None
      end
    else None
  end.

Definition utf8_decode (raw : bytes) : option str :=
  utf8_decode_N (map Byte.to_N raw).

(** ** The operating system *)

(** What a child process does once launched.  [LaunchFails]: the program
    cannot be started and [subprocess.Popen] raises.  Otherwise the child
    runs for [duration] clock ticks ([None]: it never terminates), ends with
    exit status [status] and has by then written [written] to its combined
    stdout and stderr. *)
Inductive Outcome :=
| LaunchFails
| Runs (duration : option nat) (status : Z) (written : bytes).

(** A [Process] object of run.py together with the two objects it owns
    exclusively: [self.proc] (the [Popen] object, with its [returncode]
    attribute) and [self.outfile] (the temporary file, with its offset and
    its closed flag).  The three are created together in [Process.start] and
    are reachable only through the [Process], so they share one heap cell;
    a handle is the index of the cell. *)
Record Process := mkProcess {
  argv : list str;          (* the command line the child was started with *)
  finish : option nat;      (* clock value at which the child terminates *)
  status : Z;               (* the exit status it terminates with *)
  content : bytes;          (* what the capture file holds by then *)
  returncode : option Z;    (* self.proc.returncode *)
  pos : nat;                (* offset of self.outfile *)
  closed : bool;            (* self.outfile.closed *)
  output : option str       (* self.output *)
}.

Definition handle := nat.

(** Observable actions, in the order they happen. *)
Inductive Event :=
| EvSpawn (h : handle) (cmd : list str)   (* subprocess.Popen(cmd, ...) *)
| EvWait (h : handle)                     (* self.proc.wait() *)
| EvRead (h : handle)                     (* self.outfile.read() *)
| EvStdout (text : str)                   (* print(text) *)
| EvStderr (text : str)                   (* print(text, file=sys.stderr) *)
| EvSleep.                                (* time.sleep(0.0001) *)

Record World := mkWorld {
  clock : nat;
  heap : list Process;
  log : list Event
}.

Inductive Exn :=
| OSError              (* the child could not be launched *)
| ValueError           (* I/O operation on closed file; list.remove(x) *)
| TypeError            (* comparison of None with an integer *)
| UnicodeDecodeError
| DanglingHandle.      (* no Python counterpart: a handle outside the heap *)

(** Result of running a piece of the program in a world. *)
Inductive Res (A : Type) :=
| Done (a : A) (w : World)        (* returned [a] *)
| Raised (e : Exn) (w : World)    (* an exception propagates *)
| Blocked (w : World)             (* blocked for ever in [wait] *)
| OutOfFuel (w : World).          (* the loop bound of the model was hit *)
Arguments Done {A} a w.
Arguments Raised {A} e w.
Arguments Blocked {A} w.
Arguments OutOfFuel {A} w.

Definition M (A : Type) : Type := World -> Res A.

Definition ret {A} (a : A) : M A := fun w => Done a w.
Definition bind {A B} (m : M A) (f : A -> M B) : M B :=
  fun w =>
    match m w with
    | Done a w' => f a w'
    | Raised e w' => Raised e w'
    | Blocked w' => Blocked w'
    | OutOfFuel w' => OutOfFuel w'
    end.
Definition raise {A} (e : Exn) : M A := fun w => Raised e w.

Notation "x <- m ;; k" := (bind m (fun x => k))
  (at level 100, m at next level, right associativity).
Notation "m ;; k" := (bind m (fun _ => k))
  (at level 100, right associativity).

Definition emit (e : Event) : M unit :=
  fun w => Done tt (mkWorld (clock w) (heap w) (log w ++ [e])).

Definition deref (h : handle) : M Process :=
  fun w =>
    match heap w !! h with
    | Some p => Done p w
    | None => Raised DanglingHandle w
    end.

Definition store (h : handle) (p : Process) : M unit :=
  fun w => Done tt (mkWorld (clock w) (<[h := p]> (heap w)) (log w)).

Definition set_returncode (rc : option Z) (p : Process) : Process :=
  mkProcess (argv p) (finish p) (status p) (content p)
            rc (pos p) (closed p) (output p).
Definition set_pos (n : nat) (p : Process) : Process :=
  mkProcess (argv p) (finish p) (status p) (content p)
            (returncode p) n (closed p) (output p).
Definition set_closed (b : bool) (p : Process) : Process :=
  mkProcess (argv p) (finish p) (status p) (content p)
            (returncode p) (pos p) b (output p).
Definition set_output (o : option str) (p : Process) : Process :=
  mkProcess (argv p) (finish p) (status p) (content p)
            (returncode p) (pos p) (closed p) o.

(** [print(text)] and [print(text, file=sys.stderr)] *)
Definition print (text : str) : M unit := emit (EvStdout text).
Definition print_stderr (text : str) : M unit := emit (EvStderr text).

(** [time.sleep(0.0001)]: time passes. *)
Definition sleep : M unit :=
  fun w => Done tt (mkWorld (S (clock w)) (heap w) (log w ++ [EvSleep])).

(** ** The program *)

Record Invocation := mkInvocation { command : list str }.

(** State of the [while] loop of [execute]: its three local variables. *)
Record LoopState := mkLoop {
  invocations : list Invocation;   (* the worklist *)
  pending : list handle;           (* started, not yet drained *)
  exit_code : Z
}.

Section Program.

(** The external collaborators.  [child n cmd] is what happens when the
    [n]-th [Popen] call of the run (counted from the size of the heap)
    launches [cmd]; [os_walk top] is what [os.walk(top)] yields. *)
Variable child : nat -> list str -> Outcome.
Variable os_walk : str -> list (str * list str * list str).

(** *** [subprocess.Popen] and the capture file *)

(** [subprocess.Popen(cmd, stdout=outfile, stderr=subprocess.STDOUT)],
    with the [tempfile.TemporaryFile] it writes to.  The offset of the
    file is shared with the child, so it stands after what was written. *)
Definition Popen (cmd : list str) : M handle :=
  fun w =>
    let h := length (heap w) in
    match child h cmd with
    | LaunchFails => Raised OSError w
    | Runs duration st written =>
      let p := mkProcess cmd ((fun d => clock w + d)%nat <$> duration)
                         st written None (length written) false None in
      Done h (mkWorld (clock w) (heap w ++ [p]) (log w ++ [EvSpawn h cmd]))
    end.

(** [Popen.poll()]: never blocks; records the exit status once the child
    has terminated. *)
Definition Popen_poll (h : handle) : M (option Z) :=
  p <- deref h ;;
  match returncode p with
  | Some rc => ret (Some rc)
  | None =>
    fun w =>
      match finish p with
      | Some t =>
        if (t <=? clock w)%nat then
          (store h (set_returncode (Some (status p)) p) ;;
           ret (Some (status p))) w
        else Done None w
      | None => Done None w
      end
  end.

(** [Popen.wait()]: blocks until the child has terminated. *)
Definition Popen_wait (h : handle) : M Z :=
  emit (EvWait h) ;;
  p <- deref h ;;
  match returncode p with
  | Some rc => ret rc
  | None =>
    fun w =>
      match finish p with
      | Some t =>
        Done (status p)
             (mkWorld (Nat.max (clock w) t)
                      (<[h := set_returncode (Some (status p)) p]> (heap w))
                      (log w))
      | None => Blocked w
      end
  end.

(** [outfile.seek(0)] *)
Definition seek0 (h : handle) : M unit :=
  p <- deref h ;;
  if closed p then raise ValueError
  else store h (set_pos 0 p).

(** [outfile.read()] *)
Definition read (h : handle) : M bytes :=
  p <- deref h ;;
  if closed p then raise ValueError
  else
    emit (EvRead h) ;;
    store h (set_pos (length (content p)) p) ;;
    ret (drop (pos p) (content p)).

(** [outfile.close()] *)
Definition close (h : handle) : M unit :=
  p <- deref h ;;
  store h (set_closed true p).

(** [raw.decode("utf-8")] *)
Definition decode (raw : bytes) : M str :=
  match utf8_decode raw with
  | Some text => ret text
  | None => raise UnicodeDecodeError
  end.

(** *** class Process *)

(** [Process.poll], run.py lines 16-19 *)
Definition Process_poll (h : handle) : M (option Z) := Popen_poll h.

(** [Process.returncode], run.py lines 21-23 *)
Definition Process_returncode (h : handle) : M (option Z) :=
  p <- deref h ;; ret (returncode p).

(** [Process.get_output], run.py lines 25-36.  The guard is
    [if not self.output], a truthiness test. *)
Definition get_output (h : handle) : M str :=
  self <- deref h ;;
  if negb (truthy (output self)) then
    Popen_wait h ;;
    seek0 h ;;
    raw <- read h ;;
    text <- decode raw ;;
    self' <- deref h ;;
    store h (set_output (Some text) self') ;;
    close h ;;
    ret text
  else
    ret (default [] (output self)).

(** [Process.start], run.py lines 38-47 *)
Definition Process_start (invocation : Invocation) : M handle :=
  process <- Popen (command invocation) ;;
  Popen_poll process ;;
  ret process.

(** *** class Invocation *)

(** [Invocation.__str__], run.py lines 55-56 *)
Definition Invocation_str (self : Invocation) : str :=
  join (lit " ") (command self).

(** [Invocation.get_command], run.py lines 58-62 *)
Definition get_command (tidy_executable file_path : str) : Invocation :=
  mkInvocation [tidy_executable; file_path].

(** [Invocation.start], run.py lines 64-69 *)
Definition Invocation_start (self : Invocation) (verbose : bool)
  : M handle :=
  (if verbose then print_stderr (lit "# " ++ Invocation_str self)
   else ret tt) ;;
  Process_start self.

(** *** [execute], run.py lines 92-130 *)

(** [worst_exit_code(exit_code, proc.returncode)]: comparing [None] with
    an integer raises. *)
Definition merge_exit_code (exit_code : Z) (rc : option Z) : M Z :=
  match rc with
  | Some cur => ret (worst_exit_code exit_code cur)
  | None => raise TypeError
  end.

(** The [for] loop of the [jobs == 1] branch, lines 96-100. *)
Fixpoint execute_sequential (invs : list Invocation) (verbose : bool)
         (exit_code : Z) : M Z :=
  match invs with
  | [] => ret exit_code
  | invocation :: rest =>
    proc <- Invocation_start invocation verbose ;;
    text <- get_output proc ;;
    print text ;;
    rc <- Process_returncode proc ;;
    exit_code' <- merge_exit_code exit_code rc ;;
    execute_sequential rest verbose exit_code'
  end.

(** [[proc for proc in pending if proc.poll() is not None]], line 105 *)
Fixpoint poll_complete (pending : list handle) : M (list handle) :=
  match pending with
  | [] => ret []
  | proc :: rest =>
    r <- Process_poll proc ;;
    complete <- poll_complete rest ;;
    ret (if r is Some _ then proc :: complete else complete)
  end.

(** [pending.remove(proc)]: removes the first occurrence, raises
    [ValueError] when there is none. *)
Fixpoint list_remove (x : handle) (l : list handle)
  : option (list handle) :=
  match l with
  | [] => None
  | y :: l' =>
    if decide (x = y) then Some l' else cons y <$> list_remove x l'
  end.

(** The [for proc in complete] loop, lines 106-109. *)
Fixpoint drain (complete : list handle) (pending : list handle)
         (exit_code : Z) : M (list handle * Z) :=
  match complete with
  | [] => ret (pending, exit_code)
  | proc :: rest =>
    match list_remove proc pending with
    | None => raise ValueError
    | Some pending' =>
      text <- get_output proc ;;
      print text ;;
      rc <- Process_returncode proc ;;
      exit_code' <- merge_exit_code exit_code rc ;;
      drain rest pending' exit_code'
    end
  end.

(** [pending.extend(i.start(verbose) for i in invocations[:capacity])],
    line 125: the generator is consumed one start at a time. *)
Fixpoint start_all (invs : list Invocation) (verbose : bool)
  : M (list handle) :=
  match invs with
  | [] => ret []
  | i :: rest =>
    proc <- Invocation_start i verbose ;;
    procs <- start_all rest verbose ;;
    ret (proc :: procs)
  end.

(** One iteration of the [while] loop, lines 104-129. *)
Definition loop_body (jobs : Z) (verbose : bool) (st : LoopState)
  : M LoopState :=
  (* Collect completed tidy processes and print results. *)
  complete <- poll_complete (pending st) ;;
  drained <- drain complete (pending st) (exit_code st) ;;
  let pending1 := fst drained in
  let exit_code1 := snd drained in
  (* Schedule new processes if there's room. *)
  let capacity := jobs - Z.of_nat (length pending1) in
  started <- start_all (slice_to capacity (invocations st)) verbose ;;
  let invocations1 := slice_from capacity (invocations st) in
  (* Yield CPU. *)
  sleep ;;
  ret (mkLoop invocations1 (pending1 ++ started) exit_code1).

(** [while invocations or pending], lines 103-130.  [fuel] bounds the
    number of iterations. *)
Fixpoint execute_loop (fuel : nat) (jobs : Z) (verbose : bool)
         (st : LoopState) : M Z :=
  match invocations st, pending st with
  | [], [] => ret (exit_code st)
  | _, _ =>
    match fuel with
    | O => fun w => OutOfFuel w
    | S fuel' =>
      st' <- loop_body jobs verbose st ;;
      execute_loop fuel' jobs verbose st'
    end
  end.

(** [execute(invocations, verbose, jobs, max_load_average)].  The value
    of [max_load_average] is never looked at (the code that did is
    commented out, lines 114-123), so its type is left open. *)
Definition execute {L : Type} (fuel : nat) (invs : list Invocation)
           (verbose : bool) (jobs : Z) (max_load_average : L) : M Z :=
  if jobs =? 1 then
    execute_sequential invs verbose 0
  else
    execute_loop fuel jobs verbose (mkLoop invs [] 0).

(** *** [main], run.py lines 133-153 *)

(** [os.path.join(a, p)] (POSIX) *)
Definition os_path_join (a p : str) : str :=
  if startswith p (lit "/") then p
  else if negb (truthy (Some a)) || endswith a (lit "/") then a ++ p
  else a ++ lit "/" ++ p.

(** Lines 142-147 *)
Definition is_source_file (file : str) : bool :=
  endswith file (lit ".c") || endswith file (lit ".cc")
  || endswith file (lit ".cpp").

Definition scan (source_path : str) : list str :=
  '(root, _, files) ← os_walk source_path;
  file ← filter (fun f => is_source_file f = true) files;
  [os_path_join root file].

(** [tidy_executable] is [None] or a string. *)
Definition main {L X : Type} (fuel : nat) (source_path : str)
           (tidy_executable : option str) (verbose : bool) (jobs : Z)
           (max_load_average : L) (extra_args : X) : M Z :=
  if negb (truthy tidy_executable) then
    print_stderr (lit "error: clang-tidy executable not found") ;;
    ret 1
  else
    let scan_files := scan source_path in
    let invs :=
      map (get_command (default [] tidy_executable)) scan_files in
    execute fuel invs verbose jobs max_load_average.


(** ** Vocabulary of the specification *)

(** The world a run ends in, however it ends. *)
Definition final {A} (r : Res A) : World :=
  match r with
  | Done _ w | Raised _ w | Blocked w | OutOfFuel w => w
  end.

(** [traced m w Q F]: running [m] in [w] appends some events [evs] to the
    log; when [m] returns [a] in world [w'], [Q a w' evs] holds; when it
    ends in any other way, [F evs] holds. *)
Definition traced {A} (m : M A) (w : World)
           (Q : A -> World -> list Event -> Prop)
           (F : list Event -> Prop) : Prop :=
  exists evs,
    log (final (m w)) = log w ++ evs /\
    match m w with
    | Done a w' => Q a w' evs
    | _ => F evs
    end.

Definition never {A} : A -> Prop := fun _ => False.

(** The launches, the printed texts and the pauses of a log. *)
Definition spawns (evs : list Event) : list (handle * list str) :=
  omap (fun e => if e is EvSpawn h cmd then Some (h, cmd) else None) evs.
Definition stdouts (evs : list Event) : list str :=
  omap (fun e => if e is EvStdout text then Some text else None) evs.
Definition is_sleep (e : Event) : bool :=
  if e is EvSleep then true else false.

(** Processes started and not yet drained at the end of a log: every
    launch adds one, every printed output removes one. *)
Definition in_flight (evs : list Event) : Z :=
  Z.of_nat (length (spawns evs)) - Z.of_nat (length (stdouts evs)).

(** Starting with [base] processes in flight, the number in flight never
    exceeds [k] at any instant of [evs]. *)
Definition peak (base k : Z) (evs : list Event) : Prop :=
  forall pre, pre `prefix_of` evs -> base + in_flight pre <= k.

(** Events that neither launch a process, nor print an output, nor
    pause. *)
Definition neutral (e : Event) : Prop :=
  match e with
  | EvSpawn _ _ | EvStdout _ | EvSleep => False
  | _ => True
  end.

(** A computation that, however it ends, logs neutral events only. *)
Definition quiet {A} (m : M A) : Prop :=
  forall w, traced m w (fun _ _ evs => Forall neutral evs) (Forall neutral).

(** A child that is launched, terminates, and writes valid UTF-8. *)
Definition well_behaved (o : Outcome) : Prop :=
  match o with
  | Runs (Some _) _ written => is_Some (utf8_decode written)
  | _ => False
  end.
Definition out_text (o : Outcome) : str :=
  if o is Runs _ _ written then default [] (utf8_decode written) else [].
Definition out_status (o : Outcome) : Z :=
  if o is Runs _ st _ then st else 0.
Definition out_duration (o : Outcome) : nat :=
  if o is Runs (Some d) _ _ then d else O.

(** Starting from a heap of size [h0], the [i]-th invocation of a
    worklist is launched as handle [h0 + i]. *)
Definition launches (h0 : nat) (invs : list Invocation)
  : list (handle * list str) :=
  imap (fun i inv => ((h0 + i)%nat, command inv)) invs.
Definition outcomes (h0 : nat) (invs : list Invocation) : list Outcome :=
  imap (fun i inv => child (h0 + i) (command inv)) invs.
Definition outcome_at (h0 : nat) (invs : list Invocation) (h : handle)
  : Outcome :=
  default LaunchFails (outcomes h0 invs !! (h - h0)%nat).

(** A started process nobody has read yet: it terminates at [t] with
    status [st], its capture file decodes to [text], is open, and nothing
    is cached. *)
Definition ready (w : World) (h : handle) (t : nat) (st : Z) (text : str)
  : Prop :=
  exists p,
    heap w !! h = Some p /\ finish p = Some t /\ status p = st /\
    utf8_decode (content p) = Some text /\
    output p = None /\ closed p = false /\
    (returncode p = None \/ returncode p = Some st).

(** Bound on the iterations the loop still needs. *)
Definition remaining (w : World) (h : handle) : nat :=
  match heap w !! h with
  | Some p => if finish p is Some t then (t - clock w)%nat else O
  | None => O
  end.
Definition work_left (st : LoopState) (w : World) : nat :=
  (sum_list_with (fun o => 2 + out_duration o)
                 (outcomes (length (heap w)) (invocations st))
   + sum_list_with (fun h => 1 + remaining w h) (pending st))%nat.

(** What holds between two iterations of a run of the loop that started
    with the worklist [all] in a world whose heap had size [h0], after
    the events [evs]: the first [n] invocations have been launched, in
    order, as the handles [h0 .. h0 + n - 1]; every one of them is either
    pending and unread or drained, its output printed and its status
    merged. *)
Definition loop_inv (h0 : nat) (all : list Invocation) (jobs : Z)
           (st : LoopState) (w : World) (evs : list Event) : Prop :=
  exists n drained,
    length (heap w) = (h0 + n)%nat /\ (n <= length all)%nat /\
    invocations st = drop n all /\
    NoDup (pending st) /\
    Z.of_nat (length (pending st)) <= jobs /\
    (forall h, h ∈ pending st ->
               exists t, ready w h t (out_status (outcome_at h0 all h))
                               (out_text (outcome_at h0 all h))) /\
    drained ++ pending st ≡ₚ seq h0 n /\
    spawns evs = launches h0 (take n all) /\
    stdouts evs = (fun h => out_text (outcome_at h0 all h)) <$> drained /\
    exit_code st
    = fold_left worst_exit_code
                ((fun h => out_status (outcome_at h0 all h)) <$> drained)
                0.

(** The reading of the yield step in which an iteration pauses only when
    it neither drained nor started anything. *)
Definition yields_only_when_idle (jobs : Z) (verbose : bool)
           (st : LoopState) (w : World) : Prop :=
  forall st' w' evs,
    loop_body jobs verbose st w = Done st' w' ->
    log w' = log w ++ evs ->
    EvSleep ∈ evs -> spawns evs = [] /\ stdouts evs = [].

(** ** Sample data *)

Definition world0 : World := mkWorld 0 [] [].

(** Three children: the first prints [a] and succeeds after three ticks,
    the second prints nothing and exits 2 at once, every later one is
    killed by signal 11 after one tick. *)
Definition sample_child (n : nat) (cmd : list str) : Outcome :=
  match n with
  | O => Runs (Some 3%nat) 0 ["a"%byte]
  | S O => Runs (Some 0%nat) 2 []
  | _ => Runs (Some 1%nat) (-11) ["b"%byte; "010"%byte]
  end.

Definition sample_invocations : list Invocation :=
  [get_command (lit "tidy") (lit "a.c");
   get_command (lit "tidy") (lit "b.cpp");
   get_command (lit "tidy") (lit "c.cc")].

Definition sample_walk (top : str)
  : list (str * list str * list str) :=
  [(top, [lit "sub"], [lit "a.c"; lit "notes.txt"; lit "b.cpp"]);
   (top ++ lit "/sub", [], [lit "c.cc"; lit "c.h"])].

(** The world after the first two sample invocations have been started:
    the first child is still running, the second has already exited with
    status 2 and an empty capture file. *)
Definition sample_world : World :=
  mkWorld 0%nat
    [mkProcess [lit "tidy"; lit "a.c"] (Some 3%nat) 0 ["a"%byte]
               None 1%nat false None;
     mkProcess [lit "tidy"; lit "b.cpp"] (Some 0%nat) 2 []
               (Some 2) 0%nat false None]
    [EvSpawn 0%nat [lit "tidy"; lit "a.c"];
     EvSpawn 1%nat [lit "tidy"; lit "b.cpp"]].

(** ** Command-line helper *)

(** [argv.index(x)]: the position of the first occurrence, [None] for
    [ValueError]. *)
Fixpoint list_index (x : str) (argv : list str) : option nat :=
  match argv with
  | [] => None
  | y :: rest =>
    if decide (y = x) then Some O else S <$> list_index x rest
  end.

(** [partition_args], run.py lines 173-179: split the arguments around
    the first [--]. *)
Definition partition_args (argv : list str) : list str * list str :=
  match list_index (lit "--") argv with
  | Some double_dash =>
    (slice_to (Z.of_nat double_dash) argv,
     slice_from (Z.of_nat double_dash + 1) argv)
  | None => (argv, [])
  end.

(** ** More sample data *)

(** A child that never terminates, and the world right after it has been
    started. *)
Definition hung_child (n : nat) (cmd : list str) : Outcome :=
  Runs None 0 [].
Definition hung_world : World :=
  mkWorld 0%nat
    [mkProcess [lit "tidy"; lit "a.c"] None 0 [] None 0%nat false None]
    [EvSpawn 0%nat [lit "tidy"; lit "a.c"]].

(** A terminated child whose output is the single byte 0xFF. *)
Definition garbled_world : World :=
  mkWorld 0%nat
    [mkProcess [lit "tidy"; lit "a.c"] (Some 0%nat) 0 ["255"%byte]
               None 1%nat false None]
    [EvSpawn 0%nat [lit "tidy"; lit "a.c"]].

(** The second launch of a run fails, every other child prints [a] and
    succeeds after one tick. *)
Definition failing_child (n : nat) (cmd : list str) : Outcome :=
  match n with
  | S O => LaunchFails
  | _ => Runs (Some 1%nat) 0 ["a"%byte]
  end.

(** The world after the first child of [failing_child] has been started. *)
Definition one_started_world : World :=
  mkWorld 0%nat
    [mkProcess [lit "tidy"; lit "a.c"] (Some 1%nat) 0 ["a"%byte]
               None 1%nat false None]
    [EvSpawn 0%nat [lit "tidy"; lit "a.c"]].

Definition sample_argv : list str :=
  [lit "-v"; lit "--"; lit "-std=c99"; lit "--"].

(** * Properties *)

(** ** The exit-code merge rule *)

Ltac worst_cases :=
  unfold worst_exit_code;
  repeat match goal with
         | |- context [?a <? ?b] => destruct (Z.ltb_spec a b)
         end;
  lia.

Lemma worst_exit_code_comm (a b : Z) :
  worst_exit_code a b = worst_exit_code b a.
Proof. worst_cases. Qed.

Lemma worst_exit_code_assoc (a b c : Z) :
  worst_exit_code (worst_exit_code a b) c
  = worst_exit_code a (worst_exit_code b c).
Proof. worst_cases. Qed.

Lemma fold_left_worst_perm (l l' : list Z) (a : Z) :
  l ≡ₚ l' ->
  fold_left worst_exit_code l a = fold_left worst_exit_code l' a.
Proof.
  intros Hp. revert a.
  induction Hp as [|x l l' _ IH|x y l|l l' l'' _ IH1 _ IH2];
    intros a; simpl.
  - done.
  - apply IH.
  - f_equal. rewrite !worst_exit_code_assoc. f_equal.
    apply worst_exit_code_comm.
  - by rewrite IH1.
Qed.

Lemma fold_left_worst_app (l l' : list Z) (a : Z) :
  fold_left worst_exit_code (l ++ l') a
  = fold_left worst_exit_code l' (fold_left worst_exit_code l a).
Proof. apply fold_left_app. Qed.

(** C1: [worst_exit_code(worst, cur)] is [min(worst, cur)] when [cur] is
    negative, [worst] when [cur] is non-negative and [worst] is negative,
    and [max(worst, cur)] when neither is negative. *)
Theorem worst_exit_code_spec (worst cur : Z) :
  (cur < 0 -> worst_exit_code worst cur = Z.min worst cur) /\
  (0 <= cur -> worst < 0 -> worst_exit_code worst cur = worst) /\
  (0 <= cur -> 0 <= worst ->
   worst_exit_code worst cur = Z.max worst cur).
Proof.
  unfold worst_exit_code.
  destruct (Z.ltb_spec cur 0), (Z.ltb_spec worst 0);
    repeat split; intros; lia.
Qed.

(** C2: [worst_exit_code] is commutative and associative, and therefore
    the left fold of the merge rule from 0 over a list of exit statuses
    gives the same code for every permutation of the list. *)
Theorem worst_exit_code_order_independent :
  (forall a b : Z, worst_exit_code a b = worst_exit_code b a) /\
  (forall a b c : Z,
      worst_exit_code (worst_exit_code a b) c
      = worst_exit_code a (worst_exit_code b c)) /\
  (forall l l' : list Z,
      l ≡ₚ l' -> fold_exit_codes l = fold_exit_codes l').
Proof.
  split; [exact worst_exit_code_comm|].
  split; [exact worst_exit_code_assoc|].
  intros l l' Hp. by apply fold_left_worst_perm.
Qed.

(** ** Reasoning about runs *)

Lemma bind_done {A B} (m : M A) (f : A -> M B) w a w' :
  m w = Done a w' -> bind m f w = f a w'.
Proof. unfold bind. by intros ->. Qed.

Lemma deref_done h w p : heap w !! h = Some p -> deref h w = Done p w.
Proof. unfold deref. by intros ->. Qed.

Lemma traced_ret {A} (a : A) w (Q : A -> World -> list Event -> Prop) F :
  Q a w [] -> traced (ret a) w Q F.
Proof. intros HQ. exists []. simpl. by rewrite app_nil_r. Qed.

Lemma traced_raise {A} e w (Q : A -> World -> list Event -> Prop)
      (F : list Event -> Prop) :
  F [] -> traced (raise e) w Q F.
Proof. intros HF. exists []. simpl. by rewrite app_nil_r. Qed.

Lemma traced_bind {A B} (m : M A) (f : A -> M B) w
      (Q1 : A -> World -> list Event -> Prop)
      (Q : B -> World -> list Event -> Prop) (F : list Event -> Prop) :
  traced m w Q1 F ->
  (forall a w1 e1,
      Q1 a w1 e1 ->
      traced (f a) w1 (fun b w2 e2 => Q b w2 (e1 ++ e2))
             (fun e2 => F (e1 ++ e2))) ->
  traced (bind m f) w Q F.
Proof.
  intros (e1 & Hlog & Hm) Hf. unfold traced, bind in *.
  destruct (m w) as [a w1|x w1|w1|w1]; simpl in *; eauto.
  destruct (Hf a w1 e1 Hm) as (e2 & Hlog2 & Hf2).
  exists (e1 ++ e2). rewrite Hlog2, Hlog, app_assoc. split; [done|].
  by destruct (f a w1).
Qed.

Lemma traced_mono {A} (m : M A) w
      (Q Q' : A -> World -> list Event -> Prop)
      (F F' : list Event -> Prop) :
  traced m w Q F ->
  (forall a w' evs, Q a w' evs -> Q' a w' evs) ->
  (forall evs, F evs -> F' evs) ->
  traced m w Q' F'.
Proof.
  intros (evs & Hlog & Hm) HQ HF. exists evs. split; [done|].
  destruct (m w); eauto.
Qed.

Lemma traced_done {A} (m : M A) w
      (Q : A -> World -> list Event -> Prop) :
  traced m w Q never ->
  exists a w' evs, m w = Done a w' /\ log w' = log w ++ evs /\ Q a w' evs.
Proof.
  intros (evs & Hlog & Hm). destruct (m w) as [a w'| | |]; try done.
  by exists a, w', evs.
Qed.

Lemma traced_of_done {A} (m : M A) w a w' evs
      (Q : A -> World -> list Event -> Prop) F :
  m w = Done a w' -> log w' = log w ++ evs -> Q a w' evs ->
  traced m w Q F.
Proof. intros Hm Hlog HQ. exists evs. by rewrite Hm. Qed.

Lemma traced_result {A} (m : M A) w
      (Q : A -> World -> list Event -> Prop) F a w' :
  traced m w Q F -> m w = Done a w' ->
  exists evs, log w' = log w ++ evs /\ Q a w' evs.
Proof. intros (evs & Hlog & Hm) Heq. rewrite Heq in *. by exists evs. Qed.

Lemma traced_emit e w (Q : unit -> World -> list Event -> Prop) F :
  Q tt (mkWorld (clock w) (heap w) (log w ++ [e])) [e] ->
  traced (emit e) w Q F.
Proof. intros HQ. by exists [e]. Qed.

Lemma traced_sleep w (Q : unit -> World -> list Event -> Prop) F :
  Q tt (mkWorld (S (clock w)) (heap w) (log w ++ [EvSleep])) [EvSleep] ->
  traced sleep w Q F.
Proof. intros HQ. by exists [EvSleep]. Qed.

Lemma traced_deref h w (Q : Process -> World -> list Event -> Prop)
      (F : list Event -> Prop) :
  (forall p, heap w !! h = Some p -> Q p w []) ->
  F [] ->
  traced (deref h) w Q F.
Proof.
  intros HQ HF. exists []. unfold deref.
  destruct (heap w !! h) as [p|]; simpl; rewrite app_nil_r; eauto.
Qed.

Lemma traced_store h p w (Q : unit -> World -> list Event -> Prop) F :
  Q tt (mkWorld (clock w) (<[h := p]> (heap w)) (log w)) [] ->
  traced (store h p) w Q F.
Proof. intros HQ. exists []. simpl. by rewrite app_nil_r. Qed.

(** ** [Process.get_output] *)

Lemma get_output_cached w h p c s :
  heap w !! h = Some p -> output p = Some (c :: s) ->
  get_output h w = Done (c :: s) w.
Proof.
  intros Hp Ho. unfold get_output.
  rewrite (bind_done _ _ _ _ _ (deref_done _ _ _ Hp)).
  by rewrite Ho.
Qed.

Lemma get_output_ready w h t st text :
  ready w h t st text ->
  exists w',
    get_output h w = Done text w' /\
    log w' = log w ++ [EvWait h; EvRead h] /\
    (clock w <= clock w')%nat /\
    length (heap w') = length (heap w) /\
    (forall h', h' <> h -> heap w' !! h' = heap w !! h') /\
    exists p',
      heap w' !! h = Some p' /\ returncode p' = Some st /\
      output p' = Some text /\ closed p' = true.
Proof.
  intros (p & Hp & Hfin & Hst & Hdec & Hout & Hcl & Hrc).
  pose proof (lookup_lt_Some _ _ _ Hp) as Hlt.
  destruct p as [av fi sta co rc po cl ou]; simpl in *; subst.
  assert (Hwait : exists c',
             Popen_wait h w
             = Done st (mkWorld c'
                  (<[h := mkProcess av (Some t) st co (Some st) po false None]>
                     (heap w))
                  (log w ++ [EvWait h])) /\ (clock w <= c')%nat).
  { unfold Popen_wait, bind, emit, deref; simpl. rewrite Hp; simpl.
    destruct Hrc as [-> | ->]; simpl.
    - exists (Nat.max (clock w) t). split; [done|lia].
    - exists (clock w). split; [|lia]. unfold ret.
      by rewrite list_insert_id. }
  destruct Hwait as (c' & Hwait & Hc').
  eexists. split.
  - unfold get_output.
    rewrite (bind_done _ _ _ _ _ (deref_done _ _ _ Hp)); simpl.
    rewrite (bind_done _ _ _ _ _ Hwait).
    unfold seek0, read, close, decode, store, emit, deref, bind, ret;
      simpl.
    rewrite !list_lookup_insert_eq by (by rewrite ?length_insert); simpl.
    rewrite !list_lookup_insert_eq by (by rewrite ?length_insert); simpl.
    rewrite drop_0, Hdec; simpl.
    rewrite !list_lookup_insert_eq by (by rewrite ?length_insert); simpl.
    rewrite !list_lookup_insert_eq by (by rewrite ?length_insert); simpl.
    rewrite !list_insert_insert_eq. reflexivity.
  - simpl. split; [by rewrite <- app_assoc|]. split; [done|].
    split; [by rewrite length_insert|].
    split; [intros h' Hne; by apply list_lookup_insert_ne|].
    eexists. split; [by apply list_lookup_insert_eq|]. done.
Qed.

Lemma get_output_closed_falsy w h p rc :
  heap w !! h = Some p -> truthy (output p) = false ->
  closed p = true -> returncode p = Some rc ->
  get_output h w
  = Raised ValueError (mkWorld (clock w) (heap w) (log w ++ [EvWait h])).
Proof.
  intros Hp Ho Hcl Hrc. unfold get_output.
  rewrite (bind_done _ _ _ _ _ (deref_done _ _ _ Hp)), Ho; simpl.
  unfold Popen_wait, seek0, emit, deref, bind, ret, raise; simpl.
  rewrite Hp; simpl. rewrite Hrc; simpl. rewrite Hp; simpl.
  by rewrite Hcl.
Qed.

(** A non-empty output is cached: the second call returns the same text
    and leaves the world, log included, as it was. *)
Lemma get_output_twice_nonempty w h t st text :
  ready w h t st text -> text <> [] ->
  exists w1,
    get_output h w = Done text w1 /\ get_output h w1 = Done text w1.
Proof.
  intros Hr Hne.
  destruct (get_output_ready _ _ _ _ _ Hr)
    as (w1 & Hget & _ & _ & _ & _ & p' & Hp' & _ & Ho & _).
  exists w1. split; [done|].
  destruct text as [|c s]; [done|].
  by apply get_output_cached with p'.
Qed.

(** C10: when the captured output of a process is the empty string, the
    first [get_output()] closes the capture file and returns the empty
    string; the second call does not take the cached path: it calls
    [wait] again and the access to the closed file raises [ValueError]. *)
Theorem get_output_empty_not_cached w h t st :
  ready w h t st [] ->
  exists w1,
    get_output h w = Done [] w1 /\
    (exists p1, heap w1 !! h = Some p1 /\
                closed p1 = true /\ output p1 = Some []) /\
    get_output h w1
    = Raised ValueError
             (mkWorld (clock w1) (heap w1) (log w1 ++ [EvWait h])).
Proof.
  intros Hr.
  destruct (get_output_ready _ _ _ _ _ Hr)
    as (w1 & Hget & _ & _ & _ & _ & p' & Hp' & Hrc & Ho & Hcl).
  exists w1. split; [done|]. split; [by exists p'|].
  apply get_output_closed_falsy with p' st; try done.
  by rewrite Ho.
Qed.

(** ** Starting and consuming one process *)

Lemma outcomes_cons h0 inv rest :
  outcomes h0 (inv :: rest)
  = child h0 (command inv) :: outcomes (S h0) rest.
Proof.
  unfold outcomes. rewrite imap_cons. f_equal.
  - by rewrite Nat.add_0_r.
  - apply imap_ext. intros i x _. simpl. f_equal. lia.
Qed.

Lemma launches_cons h0 inv rest :
  launches h0 (inv :: rest) = (h0, command inv) :: launches (S h0) rest.
Proof.
  unfold launches. rewrite imap_cons. f_equal.
  - by rewrite Nat.add_0_r.
  - apply imap_ext. intros i x _. simpl. f_equal. lia.
Qed.

Lemma spawns_app e1 e2 : spawns (e1 ++ e2) = spawns e1 ++ spawns e2.
Proof. apply omap_app. Qed.

Lemma stdouts_app e1 e2 : stdouts (e1 ++ e2) = stdouts e1 ++ stdouts e2.
Proof. apply omap_app. Qed.

Lemma ready_frame w w' h t st text :
  heap w' !! h = heap w !! h ->
  ready w h t st text -> ready w' h t st text.
Proof. intros Heq (p & Hp & H). exists p. by rewrite Heq. Qed.

Lemma ready_lt w h t st text :
  ready w h t st text -> (h < length (heap w))%nat.
Proof. intros (p & Hp & _). by eapply lookup_lt_Some. Qed.

Lemma Invocation_start_ok inv verbose w o :
  child (length (heap w)) (command inv) = o ->
  well_behaved o ->
  exists w1 evs,
    Invocation_start inv verbose w = Done (length (heap w)) w1 /\
    log w1 = log w ++ evs /\
    spawns evs = [(length (heap w), command inv)] /\
    stdouts evs = [] /\
    clock w1 = clock w /\
    length (heap w1) = S (length (heap w)) /\
    (forall h', (h' < length (heap w))%nat ->
                heap w1 !! h' = heap w !! h') /\
    ready w1 (length (heap w)) (clock w + out_duration o)%nat
          (out_status o) (out_text o).
Proof.
  intros Ho Hwb.
  destruct o as [|[d|] st written]; try done.
  destruct Hwb as [text Htext]. simpl. rewrite Htext. simpl.
  set (pre := if verbose
              then [EvStderr (lit "# " ++ Invocation_str inv)] else []).
  set (w0 := mkWorld (clock w) (heap w) (log w ++ pre)).
  assert (Hrun : Invocation_start inv verbose w
                 = (process <- Popen (command inv) ;;
                    Popen_poll process ;; ret process) w0).
  { unfold Invocation_start, Process_start, bind at 1.
    subst pre w0. destruct verbose; simpl.
    - reflexivity.
    - unfold ret. rewrite app_nil_r. by destruct w. }
  rewrite Hrun. clear Hrun.
  unfold bind at 1. unfold Popen. simpl. rewrite Ho.
  set (p := mkProcess (command inv) (Some (clock w + d)%nat) st written
                      None (length written) false None).
  unfold bind at 1. unfold Popen_poll, bind at 1, deref. simpl.
  rewrite lookup_app_r by done. rewrite Nat.sub_diag. simpl.
  destruct (Nat.leb_spec (clock w + d) (clock w)) as [Hle|Hgt].
  - eexists _, (pre ++ [EvSpawn _ (command inv)]).
    unfold store, bind, ret. simpl. split; [reflexivity|]. simpl.
    split; [by rewrite app_assoc|].
    split; [subst pre; by destruct verbose|].
    split; [subst pre; by destruct verbose|].
    split; [done|].
    split; [by rewrite length_insert, length_app, Nat.add_1_r|].
    split.
    + intros h' Hh'. rewrite list_lookup_insert_ne by lia.
      by apply lookup_app_l.
    + eexists. split.
      * apply list_lookup_insert_eq. rewrite length_app. simpl. lia.
      * simpl. eauto 10.
  - eexists _, (pre ++ [EvSpawn _ (command inv)]).
    split; [reflexivity|]. simpl.
    split; [by rewrite app_assoc|].
    split; [subst pre; by destruct verbose|].
    split; [subst pre; by destruct verbose|].
    split; [done|].
    split; [by rewrite length_app, Nat.add_1_r|].
    split.
    + intros h' Hh'. by apply lookup_app_l.
    + exists p. split.
      * simpl. rewrite lookup_app_r by done. by rewrite Nat.sub_diag.
      * simpl. eauto 10.
Qed.

(** The four statements that consume a process ([get_output], [print],
    [returncode], merge), followed by any continuation [k]. *)
Lemma consume_ready {B} h code (k : Z -> M B) w t st text :
  ready w h t st text ->
  exists w2,
    (text <- get_output h ;;
     print text ;;
     rc <- Process_returncode h ;;
     exit_code' <- merge_exit_code code rc ;;
     k exit_code') w
    = k (worst_exit_code code st) w2 /\
    log w2 = log w ++ [EvWait h; EvRead h; EvStdout text] /\
    (clock w <= clock w2)%nat /\
    length (heap w2) = length (heap w) /\
    (forall h', h' <> h -> heap w2 !! h' = heap w !! h').
Proof.
  intros Hr.
  destruct (get_output_ready _ _ _ _ _ Hr)
    as (w1 & Hget & Hlog & Hclock & Hlen & Hframe & p' & Hp' & Hrc & _).
  exists (mkWorld (clock w1) (heap w1) (log w1 ++ [EvStdout text])).
  split.
  - rewrite (bind_done _ _ _ _ _ Hget).
    unfold print, emit, Process_returncode, deref, bind at 1 2 3; simpl.
    rewrite Hp'. unfold ret, bind at 1. rewrite Hrc. simpl.
    reflexivity.
  - simpl. rewrite Hlog, <- app_assoc. done.
Qed.

(** ** The sequential regime *)

Lemma execute_sequential_ok invs verbose code w :
  Forall well_behaved (outcomes (length (heap w)) invs) ->
  exists w' evs,
    execute_sequential invs verbose code w
    = Done (fold_left worst_exit_code
                      (out_status <$> outcomes (length (heap w)) invs)
                      code) w' /\
    log w' = log w ++ evs /\
    spawns evs = launches (length (heap w)) invs /\
    stdouts evs = out_text <$> outcomes (length (heap w)) invs /\
    length (heap w') = (length (heap w) + length invs)%nat.
Proof.
  revert code w. induction invs as [|inv rest IH]; intros code w Hwb.
  - exists w, []. simpl. rewrite app_nil_r, Nat.add_0_r. done.
  - rewrite outcomes_cons in *. apply Forall_cons in Hwb as [Hwb1 Hwb2].
    destruct (Invocation_start_ok inv verbose w _ eq_refl Hwb1)
      as (w1 & e1 & Hstart & Hlog1 & Hsp1 & Hout1 & _ & Hlen1 & _ & Hr).
    simpl execute_sequential.
    rewrite (bind_done _ _ _ _ _ Hstart).
    destruct (consume_ready _ code
                (execute_sequential rest verbose) _ _ _ _ Hr)
      as (w2 & Hrun & Hlog2 & _ & Hlen2 & _).
    rewrite Hrun.
    rewrite <- Hlen1, <- Hlen2 in Hwb2.
    destruct (IH (worst_exit_code code
                    (out_status (child (length (heap w)) (command inv))))
                 w2 Hwb2)
      as (w3 & e3 & Hrest & Hlog3 & Hsp3 & Hout3 & Hlen3).
    rewrite Hlen2, Hlen1 in *.
    exists w3, (e1 ++ [EvWait (length (heap w)); EvRead (length (heap w));
                       EvStdout (out_text
                          (child (length (heap w)) (command inv)))]
                   ++ e3).
    split; [by rewrite Hrest|].
    split; [by rewrite Hlog3, Hlog2, Hlog1, <- !app_assoc|].
    rewrite launches_cons, !spawns_app, !stdouts_app, Hsp1, Hout1, Hsp3,
      Hout3.
    split; [done|]. split; [done|]. simpl. lia.
Qed.

(** ** The steps of the bounded-concurrency loop *)

Lemma Popen_poll_ready w h t st text :
  ready w h t st text ->
  exists r w1,
    Popen_poll h w = Done r w1 /\
    log w1 = log w /\ clock w1 = clock w /\
    length (heap w1) = length (heap w) /\
    (forall h' t' s' x', ready w h' t' s' x' -> ready w1 h' t' s' x') /\
    (r = None -> (clock w < t)%nat).
Proof.
  intros (p & Hp & Hfin & Hst & Hdec & Hout & Hcl & Hrc).
  unfold Popen_poll. rewrite (bind_done _ _ _ _ _ (deref_done _ _ _ Hp)).
  destruct Hrc as [Hrc|Hrc]; rewrite Hrc.
  - rewrite Hfin.
    destruct (Nat.leb_spec t (clock w)) as [Hle|Hgt].
    + exists (Some (status p)),
        (mkWorld (clock w)
                 (<[h := set_returncode (Some (status p)) p]> (heap w))
                 (log w)).
      split; [reflexivity|]. simpl.
      split; [done|]. split; [done|].
      split; [by rewrite length_insert|]. split; [|done].
      intros h' t' s' x' (p' & Hp' & Hr').
      destruct (decide (h' = h)) as [->|Hne].
      * rewrite Hp in Hp'. injection Hp' as <-.
        eexists. split.
        { simpl. apply list_lookup_insert_eq. by eapply lookup_lt_Some. }
        destruct Hr' as (? & ? & ? & ? & ? & ?). simpl.
        repeat split; try done. right. congruence.
      * exists p'. simpl. by rewrite list_lookup_insert_ne.
    + exists None, w. repeat split; done.
  - exists (Some st), w. repeat split; done.
Qed.

Lemma poll_complete_ready pending w :
  (forall h, h ∈ pending -> exists t st text, ready w h t st text) ->
  exists complete w1,
    poll_complete pending w = Done complete w1 /\
    log w1 = log w /\ clock w1 = clock w /\
    length (heap w1) = length (heap w) /\
    (forall h t st text, ready w h t st text -> ready w1 h t st text) /\
    complete `sublist_of` pending /\
    (forall h t st text,
        h ∈ pending -> h ∉ complete -> ready w h t st text ->
        (clock w < t)%nat).
Proof.
  revert w. induction pending as [|h rest IH]; intros w Hall.
  - exists [], w. repeat split; try done;
      intros ? ? ? ? H; by apply elem_of_nil in H.
  - destruct (Hall h) as (t & st & text & Hr); [left|].
    destruct (Popen_poll_ready _ _ _ _ _ Hr)
      as (r & w1 & Hpoll & Hlog1 & Hclock1 & Hlen1 & Hkeep1 & Hnone).
    destruct (IH w1) as (complete & w2 & Hrest & Hlog2 & Hclock2 & Hlen2
                         & Hkeep2 & Hsub & Hlate).
    { intros h' Hh'. destruct (Hall h') as (t' & s' & x' & Hr').
      - by right.
      - eauto. }
    simpl. unfold Process_poll.
    rewrite (bind_done _ _ _ _ _ Hpoll), (bind_done _ _ _ _ _ Hrest).
    eexists _, w2. split; [reflexivity|].
    split; [congruence|]. split; [congruence|]. split; [congruence|].
    split; [eauto|]. split.
    + destruct r; [by apply sublist_skip|by apply sublist_cons].
    + intros h' t' s' x' Hin Hnin Hr'.
      destruct r as [rc|].
      * apply not_elem_of_cons in Hnin as [Hne Hnin].
        apply elem_of_cons in Hin as [->|Hin]; [done|].
        rewrite <- Hclock1. eapply Hlate; eauto.
      * apply elem_of_cons in Hin as [->|Hin].
        -- destruct Hr as (p & Hp & Hfin & _).
           destruct Hr' as (p' & Hp' & Hfin' & _).
           rewrite Hp in Hp'. injection Hp' as <-.
           rewrite Hfin in Hfin'. injection Hfin' as <-. by apply Hnone.
        -- rewrite <- Hclock1. eapply Hlate; eauto.
Qed.

Lemma list_remove_perm x l l' :
  list_remove x l = Some l' -> l ≡ₚ x :: l'.
Proof.
  revert l'. induction l as [|y l IH]; intros l'; simpl; [done|].
  destruct (decide (x = y)) as [->|Hne].
  - by intros [= ->].
  - destruct (list_remove x l) as [l0|]; simpl; [|done].
    intros [= <-]. rewrite (IH l0 eq_refl). apply perm_swap.
Qed.

Lemma list_remove_elem x l : x ∈ l -> is_Some (list_remove x l).
Proof.
  induction l as [|y l IH]; intros Hin; simpl.
  - by apply elem_of_nil in Hin.
  - destruct (decide (x = y)) as [->|Hne]; [by eexists|].
    apply elem_of_cons in Hin as [->|Hin]; [done|].
    destruct (IH Hin) as [l' ->]. by eexists.
Qed.

Lemma list_remove_length x l l' :
  list_remove x l = Some l' -> length l = S (length l').
Proof. intros H. by rewrite (list_remove_perm _ _ _ H). Qed.

Lemma drain_ready (st_of : handle -> Z) (text_of : handle -> str)
      complete pending code w :
  NoDup complete ->
  (forall h, h ∈ complete -> h ∈ pending) ->
  (forall h, h ∈ complete ->
             exists t, ready w h t (st_of h) (text_of h)) ->
  exists pending1 w2 evs,
    drain complete pending code w
    = Done (pending1,
            fold_left worst_exit_code (st_of <$> complete) code) w2 /\
    log w2 = log w ++ evs /\
    spawns evs = [] /\
    stdouts evs = text_of <$> complete /\
    pending ≡ₚ complete ++ pending1 /\
    (clock w <= clock w2)%nat /\
    length (heap w2) = length (heap w) /\
    (forall h', h' ∉ complete -> heap w2 !! h' = heap w !! h').
Proof.
  revert pending code w.
  induction complete as [|h rest IH]; intros pending code w Hnd Hin Hall.
  - exists pending, w, []. simpl. rewrite app_nil_r. done.
  - apply NoDup_cons in Hnd as [Hh Hnd].
    destruct (list_remove_elem h pending) as [pending' Hrm];
      [apply Hin; left|].
    destruct (Hall h) as (t & Hr); [left|].
    simpl drain. rewrite Hrm.
    destruct (consume_ready _ code (drain rest pending') _ _ _ _ Hr)
      as (w1 & Hrun & Hlog1 & Hclock1 & Hlen1 & Hframe1).
    rewrite Hrun.
    pose proof (list_remove_perm _ _ _ Hrm) as Hperm.
    destruct (IH pending' (worst_exit_code code (st_of h)) w1 Hnd)
      as (pending1 & w2 & e2 & Hdrain & Hlog2 & Hsp2 & Hout2 & Hperm2
          & Hclock2 & Hlen2 & Hframe2).
    { intros h' Hh'. assert (h' ∈ h :: pending') as Hin'.
      { rewrite <- Hperm. apply Hin. by right. }
      apply elem_of_cons in Hin' as [->|]; done. }
    { intros h' Hh'. destruct (Hall h') as (t' & Hr'); [by right|].
      exists t'. eapply ready_frame; [|exact Hr'].
      apply Hframe1. intros ->. done. }
    exists pending1, w2,
      ([EvWait h; EvRead h; EvStdout (text_of h)] ++ e2).
    split; [by rewrite Hdrain|].
    split; [by rewrite Hlog2, Hlog1, <- app_assoc|].
    split; [by rewrite spawns_app, Hsp2|].
    split; [by rewrite stdouts_app, Hout2|].
    split; [by rewrite Hperm, Hperm2|].
    split; [lia|]. split; [congruence|].
    intros h' Hh'. apply not_elem_of_cons in Hh' as [Hne Hh'].
    rewrite Hframe2 by done. by apply Hframe1.
Qed.

Lemma start_all_ok invs verbose w :
  Forall well_behaved (outcomes (length (heap w)) invs) ->
  exists w3 evs,
    start_all invs verbose w
    = Done (seq (length (heap w)) (length invs)) w3 /\
    log w3 = log w ++ evs /\
    spawns evs = launches (length (heap w)) invs /\
    stdouts evs = [] /\
    clock w3 = clock w /\
    length (heap w3) = (length (heap w) + length invs)%nat /\
    (forall h', (h' < length (heap w))%nat ->
                heap w3 !! h' = heap w !! h') /\
    (forall i o,
        outcomes (length (heap w)) invs !! i = Some o ->
        ready w3 (length (heap w) + i)%nat
              (clock w + out_duration o)%nat
              (out_status o) (out_text o)).
Proof.
  revert w. induction invs as [|inv rest IH]; intros w Hwb.
  - exists w, []. simpl. rewrite app_nil_r, Nat.add_0_r.
    repeat split; done.
  - rewrite outcomes_cons in *. apply Forall_cons in Hwb as [Hwb1 Hwb2].
    destruct (Invocation_start_ok inv verbose w _ eq_refl Hwb1)
      as (w1 & e1 & Hstart & Hlog1 & Hsp1 & Hout1 & Hclock1 & Hlen1
          & Hframe1 & Hr1).
    rewrite <- Hlen1 in Hwb2.
    destruct (IH w1 Hwb2)
      as (w3 & e3 & Hrest & Hlog3 & Hsp3 & Hout3 & Hclock3 & Hlen3
          & Hframe3 & Hr3).
    simpl start_all.
    rewrite (bind_done _ _ _ _ _ Hstart), (bind_done _ _ _ _ _ Hrest).
    rewrite Hlen1 in *.
    exists w3, (e1 ++ e3).
    split; [done|].
    split; [by rewrite Hlog3, Hlog1, <- app_assoc|].
    split; [by rewrite spawns_app, Hsp1, Hsp3, launches_cons|].
    split; [by rewrite stdouts_app, Hout1, Hout3|].
    split; [congruence|]. split; [simpl; lia|].
    split.
    + intros h' Hh'. rewrite Hframe3 by lia. by apply Hframe1.
    + intros [|i] o Ho; simpl in Ho.
      * injection Ho as <-. rewrite Nat.add_0_r.
        eapply ready_frame; [|exact Hr1]. apply Hframe3. lia.
      * rewrite Hclock1 in Hr3.
        replace (length (heap w) + S i)%nat
          with (S (length (heap w)) + i)%nat by lia.
        by apply Hr3.
Qed.

(** ** One iteration of the loop *)

Lemma slice_index_nonneg len c :
  0 <= c -> slice_index len c = Z.to_nat (Z.min c (Z.of_nat len)).
Proof.
  intros Hc. unfold slice_index. by destruct (Z.ltb_spec c 0); [lia|].
Qed.

Lemma outcomes_length h l : length (outcomes h l) = length l.
Proof. apply length_imap. Qed.

Lemma outcomes_lookup h l i :
  outcomes h l !! i = (fun inv => child (h + i) (command inv)) <$> l !! i.
Proof. unfold outcomes. by rewrite list_lookup_imap. Qed.

Lemma outcomes_take h k l : outcomes h (take k l) = take k (outcomes h l).
Proof.
  apply list_eq. intros i. rewrite outcomes_lookup.
  destruct (decide (i < k)%nat) as [Hlt|Hge].
  - by rewrite !lookup_take_lt, outcomes_lookup by done.
  - by rewrite !lookup_take_ge by lia.
Qed.

Lemma outcomes_drop h n l :
  outcomes (h + n) (drop n l) = drop n (outcomes h l).
Proof.
  apply list_eq. intros i.
  rewrite outcomes_lookup, !lookup_drop, outcomes_lookup.
  by rewrite Nat.add_assoc.
Qed.

Lemma loop_body_step (st_of : handle -> Z) (text_of : handle -> str)
      jobs verbose st w :
  NoDup (pending st) ->
  Z.of_nat (length (pending st)) <= jobs ->
  (forall h, h ∈ pending st ->
             exists t, ready w h t (st_of h) (text_of h)) ->
  Forall well_behaved (outcomes (length (heap w)) (invocations st)) ->
  exists complete pending1 k w' e',
    loop_body jobs verbose st w
    = Done (mkLoop (drop k (invocations st))
                   (pending1 ++ seq (length (heap w)) k)
                   (fold_left worst_exit_code (st_of <$> complete)
                              (exit_code st))) w' /\
    log w' = log w ++ e' /\
    spawns e' = launches (length (heap w)) (take k (invocations st)) /\
    stdouts e' = text_of <$> complete /\
    pending st ≡ₚ complete ++ pending1 /\
    k = Z.to_nat (Z.min (jobs - Z.of_nat (length pending1))
                        (Z.of_nat (length (invocations st)))) /\
    length (heap w') = (length (heap w) + k)%nat /\
    (clock w < clock w')%nat /\
    (forall h t s x,
        h ∈ pending1 -> ready w h t s x ->
        ready w' h t s x /\ (clock w < t)%nat) /\
    (forall i o,
        outcomes (length (heap w)) (take k (invocations st)) !! i
        = Some o ->
        exists t,
          ready w' (length (heap w) + i)%nat t
                (out_status o) (out_text o) /\
          (S t = clock w' + out_duration o)%nat).
Proof.
  intros Hnd Hjobs Hall Hwb.
  destruct st as [invs pend code]; simpl in *.
  destruct (poll_complete_ready pend w)
    as (complete & w1 & Hpoll & Hlog1 & Hclock1 & Hlen1 & Hkeep1 & Hsub
        & Hlate).
  { intros h Hh. destruct (Hall h Hh) as (t & Hr). eauto. }
  destruct (drain_ready st_of text_of complete pend code w1)
    as (pending1 & w2 & e2 & Hdrain & Hlog2 & Hsp2 & Hout2 & Hperm
        & Hclock2 & Hlen2 & Hframe2).
  { by eapply sublist_NoDup. }
  { intros h Hh. by eapply elem_of_sublist. }
  { intros h Hh. destruct (Hall h) as (t & Hr).
    - by eapply elem_of_sublist.
    - eauto. }
  assert (Hcap : 0 <= jobs - Z.of_nat (length pending1)).
  { rewrite Hperm, length_app in Hjobs. lia. }
  set (k := Z.to_nat (Z.min (jobs - Z.of_nat (length pending1))
                            (Z.of_nat (length invs)))).
  assert (Hto : slice_to (jobs - Z.of_nat (length pending1)) invs
                = take k invs).
  { unfold slice_to. by rewrite slice_index_nonneg. }
  assert (Hfrom : slice_from (jobs - Z.of_nat (length pending1)) invs
                  = drop k invs).
  { unfold slice_from. by rewrite slice_index_nonneg. }
  assert (Hheap : length (heap w2) = length (heap w)) by congruence.
  destruct (start_all_ok (take k invs) verbose w2)
    as (w3 & e3 & Hstart & Hlog3 & Hsp3 & Hout3 & Hclock3 & Hlen3
        & Hframe3 & Hnew).
  { rewrite Hheap, outcomes_take. by apply Forall_take. }
  assert (Hk : length (take k invs) = k).
  { rewrite length_take. subst k. lia. }
  rewrite Hk, Hheap in *.
  exists complete, pending1, k,
    (mkWorld (S (clock w3)) (heap w3) (log w3 ++ [EvSleep])),
    (e2 ++ e3 ++ [EvSleep]).
  assert (Hdisj : forall h, h ∈ pending1 -> h ∉ complete).
  { intros h Hh Hc. rewrite Hperm in Hnd.
    apply NoDup_app in Hnd as (_ & Hnd & _). by apply (Hnd h). }
  split.
  { unfold loop_body.
    rewrite (bind_done _ _ _ _ _ Hpoll), (bind_done _ _ _ _ _ Hdrain).
    cbv beta zeta. cbn [fst snd invocations]. rewrite Hto, Hfrom.
    rewrite (bind_done _ _ _ _ _ Hstart). reflexivity. }
  simpl.
  split; [by rewrite Hlog3, Hlog2, Hlog1, <- !app_assoc|].
  split.
  { rewrite !spawns_app, Hsp2, Hsp3. simpl. by rewrite app_nil_r. }
  split.
  { rewrite !stdouts_app, Hout2, Hout3. simpl. by rewrite app_nil_r. }
  split; [done|]. split; [done|]. split; [done|].
  split; [lia|]. split.
  - intros h t s x Hh Hr. split.
    + assert (ready w2 h t s x) as Hr2.
      { eapply ready_frame; [apply Hframe2; by apply Hdisj|]. eauto. }
      destruct Hr2 as (p & Hp & Hrest). exists p. simpl.
      rewrite Hframe3; [done|]. rewrite <- Hheap.
      by eapply lookup_lt_Some.
    + eapply Hlate; [|by apply Hdisj|exact Hr].
      rewrite Hperm. apply elem_of_app. by right.
  - intros i o Ho. exists (clock w2 + out_duration o)%nat. split.
    + destruct (Hnew i o Ho) as (p & Hp & Hrest). by exists p.
    + lia.
Qed.

(** ** The loop invariant and the bound on the iterations *)

Lemma launches_app h0 l1 l2 :
  launches h0 (l1 ++ l2)
  = launches h0 l1 ++ launches (h0 + length l1) l2.
Proof.
  unfold launches. rewrite imap_app. f_equal.
  apply imap_ext. intros i x _. simpl. f_equal. lia.
Qed.

Lemma remaining_ready w h t st text :
  ready w h t st text -> remaining w h = (t - clock w)%nat.
Proof.
  intros (p & Hp & Hfin & _). unfold remaining. by rewrite Hp, Hfin.
Qed.

Lemma sum_list_with_pointwise {A} (f g : A -> nat) (l : list A) :
  (forall x, x ∈ l -> (f x + 1 <= g x)%nat) ->
  (sum_list_with f l + length l <= sum_list_with g l)%nat.
Proof.
  induction l as [|x l IH]; intros Hle; simpl; [lia|].
  pose proof (Hle x (list_elem_of_here _ _)).
  assert (sum_list_with f l + length l <= sum_list_with g l)%nat.
  { apply IH. intros y Hy. apply Hle. by right. }
  lia.
Qed.

Lemma sum_list_with_seq {A} (f : nat -> nat) (g : A -> nat) j
      (l : list A) :
  (forall i x, l !! i = Some x -> (f (j + i) + 1 <= g x)%nat) ->
  (sum_list_with f (seq j (length l)) + length l
   <= sum_list_with g l)%nat.
Proof.
  revert j. induction l as [|x l IH]; intros j Hle; simpl; [lia|].
  pose proof (Hle O x eq_refl) as H0. rewrite Nat.add_0_r in H0.
  assert (sum_list_with f (seq (S j) (length l)) + length l
          <= sum_list_with g l)%nat.
  { apply IH. intros i y Hy.
    replace (S j + i)%nat with (j + S i)%nat by lia. by apply Hle. }
  lia.
Qed.

Lemma sum_list_with_length {A} (r : A -> nat) (l : list A) :
  (length l <= sum_list_with (fun x => 1 + r x) l)%nat.
Proof.
  induction l as [|x l IH]; [simpl; lia|].
  change (S (length l) <= 1 + r x
          + sum_list_with (fun x => 1 + r x) l)%nat.
  lia.
Qed.

Lemma outcome_at_lookup h0 all i o :
  outcomes h0 all !! i = Some o -> outcome_at h0 all (h0 + i)%nat = o.
Proof.
  intros Ho. unfold outcome_at.
  replace (h0 + i - h0)%nat with i by lia. by rewrite Ho.
Qed.

Lemma loop_inv_step h0 all jobs verbose st w evs :
  Forall well_behaved (outcomes h0 all) ->
  loop_inv h0 all jobs st w evs ->
  exists st' w' e',
    loop_body jobs verbose st w = Done st' w' /\
    log w' = log w ++ e' /\
    loop_inv h0 all jobs st' w' (evs ++ e') /\
    (1 <= jobs -> (invocations st <> [] \/ pending st <> []) ->
     (work_left st' w' < work_left st w)%nat).
Proof.
  intros Hwb (n & drained & Hlen & Hn & Hinvs & Hnd & Hjobs & Hready
              & Hperm & Hsp & Hout & Hcode).
  set (st_of := fun h => out_status (outcome_at h0 all h)).
  set (text_of := fun h => out_text (outcome_at h0 all h)).
  destruct (loop_body_step st_of text_of jobs verbose st w Hnd Hjobs)
    as (complete & pending1 & k & w' & e' & Hrun & Hlog & Hsp' & Hout'
        & Hperm' & Hk & Hlen' & Hclock & Hold & Hnew).
  { exact Hready. }
  { rewrite Hlen, Hinvs, outcomes_drop. by apply Forall_drop. }
  assert (Hlenp : length (pending st)
                  = (length complete + length pending1)%nat).
  { by rewrite Hperm', length_app. }
  assert (Hkle : (n + k <= length all)%nat).
  { rewrite Hinvs, length_drop in Hk. lia. }
  assert (Hklen : length (take k (invocations st)) = k).
  { rewrite length_take, Hinvs, length_drop. lia. }
  assert (Hlt : forall h, h ∈ pending st -> (h < h0 + n)%nat).
  { intros h Hh. destruct (Hready h Hh) as (t & Hr).
    rewrite <- Hlen. by eapply ready_lt. }
  assert (Hin1 : forall h, h ∈ pending1 -> h ∈ pending st).
  { intros h Hh. rewrite Hperm'. apply elem_of_app. by right. }
  eexists _, w', e'. split; [exact Hrun|]. split; [exact Hlog|]. split.
  - exists (n + k)%nat, (drained ++ complete). simpl.
    split; [lia|]. split; [done|].
    split; [by rewrite Hinvs, drop_drop|].
    split.
    { apply NoDup_app. split; [|split].
      - rewrite Hperm' in Hnd. by apply NoDup_app in Hnd as (_ & _ & ?).
      - intros h Hh Hs. apply elem_of_seq in Hs.
        specialize (Hlt h (Hin1 h Hh)). lia.
      - apply NoDup_seq. }
    split.
    { rewrite length_app, length_seq. lia. }
    split.
    { intros h Hh. apply elem_of_app in Hh as [Hh|Hh].
      - destruct (Hready h (Hin1 h Hh)) as (t & Hr).
        exists t. by apply Hold.
      - apply elem_of_seq in Hh.
        destruct (lookup_lt_is_Some_2
                    (outcomes (length (heap w))
                              (take k (invocations st)))
                    (h - length (heap w))) as [o Ho].
        { rewrite outcomes_length, Hklen. lia. }
        destruct (Hnew _ _ Ho) as (t & Hr & _).
        replace (length (heap w) + (h - length (heap w)))%nat
          with h in Hr by lia.
        assert (outcome_at h0 all h = o) as Hat.
        { replace h with (h0 + (n + (h - length (heap w))))%nat
            at 1 by lia.
          apply outcome_at_lookup.
          rewrite outcomes_take, Hlen, Hinvs, outcomes_drop in Ho.
          apply lookup_take_Some in Ho as [Ho _].
          rewrite lookup_drop in Ho. by rewrite Hlen. }
        exists t. by rewrite Hat. }
    split.
    { rewrite seq_app, <- Hperm, Hlen, (assoc_L _ (_ ++ _)).
      apply Permutation_app_tail.
      rewrite <- !(assoc_L (++)). apply Permutation_app_head.
      by rewrite Hperm'. }
    split.
    { rewrite spawns_app, Hsp, Hsp', <- take_take_drop, launches_app.
      by rewrite Hinvs, Hlen, length_take_le by done. }
    split.
    { by rewrite stdouts_app, Hout, Hout', fmap_app. }
    by rewrite fmap_app, fold_left_app, Hcode.
  - intros Hj Hcond. unfold work_left. cbn [invocations pending].
    rewrite Hlen'.
    rewrite <- (take_drop k (outcomes (length (heap w)) (invocations st))).
    rewrite <- outcomes_drop, <- outcomes_take.
    rewrite (sum_list_with_Permutation_proper _ _ _ Hperm').
    rewrite !sum_list_with_app.
    pose proof (sum_list_with_length (remaining w) complete) as Hc.
    assert (sum_list_with (fun h => 1 + remaining w' h) pending1
            + length pending1
            <= sum_list_with (fun h => 1 + remaining w h) pending1)%nat
      as Hp1.
    { apply sum_list_with_pointwise. intros h Hh.
      destruct (Hready h (Hin1 h Hh)) as (t & Hr).
      destruct (Hold _ _ _ _ Hh Hr) as (Hr' & Ht).
      rewrite (remaining_ready _ _ _ _ _ Hr),
        (remaining_ready _ _ _ _ _ Hr'). lia. }
    assert (sum_list_with (fun h => 1 + remaining w' h)
                          (seq (length (heap w)) k) + k
            <= sum_list_with (fun o => 2 + out_duration o)
                 (outcomes (length (heap w))
                           (take k (invocations st))))%nat as Hs.
    { rewrite <- Hklen at 1 2.
      rewrite <- (outcomes_length (length (heap w))
                                  (take k (invocations st))).
      apply sum_list_with_seq. intros i o Ho.
      destruct (Hnew _ _ Ho) as (t & Hr & Ht).
      rewrite (remaining_ready _ _ _ _ _ Hr). lia. }
    assert (0 < length complete + length pending1 + k)%nat; [|lia].
    destruct (decide (pending st = [])) as [Hemp|Hne].
    + rewrite Hemp in Hlenp. simpl in Hlenp.
      destruct Hcond as [Hcond|Hcond]; [|done].
      assert (0 < length (invocations st))%nat.
      { destruct (invocations st); [done|simpl; lia]. }
      lia.
    + assert (0 < length (pending st))%nat.
      { destruct (pending st); [done|simpl; lia]. }
      lia.
Qed.

(** ** Whole runs of [execute] *)

Lemma execute_loop_done fuel jobs verbose st :
  invocations st = [] -> pending st = [] ->
  execute_loop fuel jobs verbose st = ret (exit_code st).
Proof. intros Hi Hp. destruct fuel; simpl; by rewrite Hi, Hp. Qed.

Lemma execute_loop_step fuel jobs verbose st :
  invocations st <> [] \/ pending st <> [] ->
  execute_loop (S fuel) jobs verbose st
  = (st' <- loop_body jobs verbose st ;;
     execute_loop fuel jobs verbose st').
Proof.
  intros Hc. simpl.
  destruct (invocations st), (pending st); try done. by destruct Hc.
Qed.

Lemma fmap_outcome_at_seq {B} (f : Outcome -> B) h0 all :
  (fun h => f (outcome_at h0 all h)) <$> seq h0 (length all)
  = f <$> outcomes h0 all.
Proof.
  apply list_eq. intros i. rewrite !list_lookup_fmap.
  destruct (decide (i < length all)%nat) as [Hlt|Hge].
  - rewrite lookup_seq_lt by done. simpl.
    destruct (lookup_lt_is_Some_2 (outcomes h0 all) i) as [o Ho];
      [by rewrite outcomes_length|].
    by rewrite Ho, (outcome_at_lookup _ _ _ _ Ho).
  - rewrite lookup_seq_ge by lia.
    by rewrite (lookup_ge_None_2 (outcomes h0 all))
      by (rewrite outcomes_length; lia).
Qed.

Lemma execute_loop_ok h0 all jobs verbose fuel st w evs :
  Forall well_behaved (outcomes h0 all) ->
  1 <= jobs ->
  loop_inv h0 all jobs st w evs ->
  (work_left st w <= fuel)%nat ->
  exists code w' e',
    execute_loop fuel jobs verbose st w = Done code w' /\
    log w' = log w ++ e' /\
    spawns (evs ++ e') = launches h0 all /\
    stdouts (evs ++ e') ≡ₚ out_text <$> outcomes h0 all /\
    code = fold_exit_codes (out_status <$> outcomes h0 all).
Proof.
  intros Hwb Hjobs. revert st w evs.
  induction fuel as [|fuel IH]; intros st w evs Hinv Hfuel.
  - destruct (decide (invocations st = [] /\ pending st = []))
      as [[Hi Hp]|Hc].
    + destruct Hinv as (n & drained & Hlen & Hn & Hinvs & Hnd & Hj
                        & Hready & Hperm & Hsp & Hout & Hcode).
      rewrite execute_loop_done by done.
      exists (exit_code st), w, []. rewrite !app_nil_r.
      split; [done|]. split; [done|].
      assert (n = length all) as ->.
      { rewrite Hi in Hinvs. symmetry in Hinvs.
        apply (f_equal length) in Hinvs.
        rewrite length_drop in Hinvs. simpl in Hinvs. lia. }
      rewrite Hp, app_nil_r in Hperm.
      split; [by rewrite Hsp, firstn_all|].
      split.
      * by rewrite Hout, Hperm, fmap_outcome_at_seq.
      * rewrite Hcode. unfold fold_exit_codes.
        apply fold_left_worst_perm.
        by rewrite Hperm, fmap_outcome_at_seq.
    + assert (invocations st <> [] \/ pending st <> []) as Hc'.
      { destruct (invocations st), (pending st); auto; by destruct Hc. }
      destruct (loop_inv_step _ _ _ verbose _ _ _ Hwb Hinv)
        as (st' & w' & e' & _ & _ & _ & Hdec).
      specialize (Hdec Hjobs Hc'). lia.
  - destruct (decide (invocations st = [] /\ pending st = []))
      as [[Hi Hp]|Hc].
    + destruct (IH st w evs Hinv) as (code & w' & e' & Hrun & Hrest).
      { unfold work_left. rewrite Hi, Hp. simpl. lia. }
      exists code, w', e'. split; [|done].
      rewrite execute_loop_done in *; done.
    + assert (invocations st <> [] \/ pending st <> []) as Hc'.
      { destruct (invocations st), (pending st); auto; by destruct Hc. }
      destruct (loop_inv_step _ _ _ verbose _ _ _ Hwb Hinv)
        as (st' & w1 & e1 & Hbody & Hlog1 & Hinv1 & Hdec).
      specialize (Hdec Hjobs Hc').
      destruct (IH st' w1 (evs ++ e1) Hinv1)
        as (code & w' & e' & Hrun & Hlog' & Hsp & Hout & Hcode); [lia|].
      exists code, w', (e1 ++ e').
      rewrite execute_loop_step, (bind_done _ _ _ _ _ Hbody) by done.
      split; [done|].
      split; [by rewrite Hlog', Hlog1, <- app_assoc|].
      by rewrite !(assoc_L (++)).
Qed.

Lemma loop_inv_init all jobs w :
  0 <= jobs ->
  loop_inv (length (heap w)) all jobs (mkLoop all [] 0) w [].
Proof.
  intros Hj. exists O, []. simpl. rewrite Nat.add_0_r.
  repeat split; try done; try lia.
  - apply NoDup_nil_2.
  - intros h Hh. by apply elem_of_nil in Hh.
Qed.

(** Under well-behaved children every run of [execute] returns, whatever
    the worklist and the parallelism: the invocations are launched in
    order, once each; every output is printed once; the exit code is the
    fold of the merge rule over the children's statuses. *)
Lemma execute_ok {L} invs verbose jobs (max_load_average : L) w fuel :
  1 <= jobs ->
  Forall well_behaved (outcomes (length (heap w)) invs) ->
  (work_left (mkLoop invs [] 0) w <= fuel)%nat ->
  exists code w' evs,
    execute fuel invs verbose jobs max_load_average w = Done code w' /\
    log w' = log w ++ evs /\
    spawns evs = launches (length (heap w)) invs /\
    stdouts evs ≡ₚ out_text <$> outcomes (length (heap w)) invs /\
    code = fold_exit_codes (out_status <$> outcomes (length (heap w)) invs).
Proof.
  intros Hjobs Hwb Hfuel. unfold execute.
  destruct (Z.eqb_spec jobs 1) as [->|Hne].
  - destruct (execute_sequential_ok invs verbose 0 w Hwb)
      as (w' & evs & Hrun & Hlog & Hsp & Hout & _).
    eexists _, w', evs. split; [exact Hrun|].
    split; [done|]. split; [done|]. split; [by rewrite Hout|done].
  - destruct (execute_loop_ok (length (heap w)) invs jobs verbose fuel
                (mkLoop invs [] 0) w [] Hwb Hjobs)
      as (code & w' & e' & Hrun & Hlog & Hsp & Hout & Hcode).
    { apply loop_inv_init. lia. }
    { done. }
    by exists code, w', e'.
Qed.

(** ** What a run may write to the log, however it ends *)

Lemma in_flight_app e1 e2 :
  in_flight (e1 ++ e2) = in_flight e1 + in_flight e2.
Proof.
  unfold in_flight. rewrite spawns_app, stdouts_app, !length_app. lia.
Qed.

Lemma neutral_spawns evs : Forall neutral evs -> spawns evs = [].
Proof.
  induction 1 as [|e evs He _ IH]; [done|].
  destruct e; simpl in *; done.
Qed.

Lemma neutral_stdouts evs : Forall neutral evs -> stdouts evs = [].
Proof.
  induction 1 as [|e evs He _ IH]; [done|].
  destruct e; simpl in *; done.
Qed.

Lemma neutral_no_sleep evs : Forall neutral evs -> EvSleep ∉ evs.
Proof.
  intros Hn Hin. rewrite Forall_forall in Hn. by apply (Hn EvSleep).
Qed.

Lemma peak_nil base k : base <= k -> peak base k [].
Proof.
  intros Hb pre Hpre. apply prefix_nil_inv in Hpre as ->.
  unfold in_flight. simpl. lia.
Qed.

Lemma prefix_of_app_cases {A} (pre e1 e2 : list A) :
  pre `prefix_of` e1 ++ e2 ->
  pre `prefix_of` e1 \/
  exists rest, pre = e1 ++ rest /\ rest `prefix_of` e2.
Proof.
  revert pre. induction e1 as [|x e1 IH]; intros pre Hpre.
  - right. by exists pre.
  - destruct pre as [|y pre]; [left; apply prefix_nil|].
    simpl in Hpre.
    pose proof (prefix_cons_inv_1 _ _ _ _ Hpre) as ->.
    apply prefix_cons_inv_2 in Hpre.
    destruct (IH pre Hpre) as [Hp|(rest & -> & Hp)].
    + left. by apply prefix_cons.
    + right. by exists rest.
Qed.

Lemma peak_app base k e1 e2 :
  peak base k e1 -> peak (base + in_flight e1) k e2 ->
  peak base k (e1 ++ e2).
Proof.
  intros H1 H2 pre Hpre.
  destruct (prefix_of_app_cases _ _ _ Hpre) as [Hp|(rest & -> & Hp)].
  - by apply H1.
  - rewrite in_flight_app. specialize (H2 rest Hp). lia.
Qed.

Lemma peak_no_spawn base k evs :
  spawns evs = [] -> base <= k -> peak base k evs.
Proof.
  intros Hsp Hb pre [rest ->]. rewrite spawns_app in Hsp.
  apply app_eq_nil in Hsp as [Hsp _].
  unfold in_flight. rewrite Hsp. simpl. lia.
Qed.

Lemma peak_no_stdout base k evs :
  stdouts evs = [] -> base + Z.of_nat (length (spawns evs)) <= k ->
  peak base k evs.
Proof.
  intros Hout Hb pre [rest ->]. rewrite stdouts_app in Hout.
  apply app_eq_nil in Hout as [Hout _].
  rewrite spawns_app, length_app in Hb.
  unfold in_flight. rewrite Hout. simpl. lia.
Qed.

Lemma peak_mono base k k' evs : k <= k' -> peak base k evs -> peak base k' evs.
Proof. intros Hk Hp pre Hpre. specialize (Hp pre Hpre). lia. Qed.

Lemma slice_to_length {A} c (l : list A) :
  0 <= c -> Z.of_nat (length (slice_to c l)) <= c.
Proof.
  intros Hc. unfold slice_to. rewrite slice_index_nonneg by done.
  rewrite length_take. lia.
Qed.

Lemma ret_sp {A} (a : A) w F :
  traced (ret a) w (fun b _ evs => b = a /\ evs = []) F.
Proof. by apply traced_ret. Qed.

Lemma raise_sp {A} e w (F : list Event -> Prop) :
  F [] -> traced (@raise A e) w (fun _ _ _ => False) F.
Proof. by apply traced_raise. Qed.

Lemma sleep_sp w F : traced sleep w (fun _ _ evs => evs = [EvSleep]) F.
Proof. by apply traced_sleep. Qed.

Lemma emit_sp e w F :
  traced (emit e) w (fun _ _ evs => evs = [e]) F.
Proof. by exists [e]. Qed.

Lemma deref_sp h w (F : list Event -> Prop) :
  F [] -> traced (deref h) w (fun _ _ evs => evs = []) F.
Proof. intros HF. by apply traced_deref. Qed.

Lemma store_sp h p w F :
  traced (store h p) w (fun _ _ evs => evs = []) F.
Proof. by apply traced_store. Qed.

Lemma Popen_poll_trace h w (F : list Event -> Prop) :
  F [] -> traced (Popen_poll h) w (fun _ _ evs => evs = []) F.
Proof.
  intros HF. unfold Popen_poll.
  eapply traced_bind; [by apply deref_sp|].
  intros p w1 e1 ->. simpl.
  destruct (returncode p); [by apply traced_ret|].
  exists []. rewrite app_nil_r.
  destruct (finish p) as [t|]; [|done].
  by destruct (t <=? clock w1)%nat.
Qed.

Lemma Popen_wait_trace h w :
  traced (Popen_wait h) w (fun _ _ evs => evs = [EvWait h])
         (fun evs => evs = [EvWait h]).
Proof.
  unfold Popen_wait.
  eapply traced_bind; [apply emit_sp|].
  intros [] w1 e1 ->.
  eapply traced_bind; [by apply deref_sp|].
  intros p w2 e2 ->. simpl.
  destruct (returncode p); [by apply traced_ret|].
  exists []. rewrite app_nil_r. by destruct (finish p).
Qed.

Lemma quiet_ret {A} (a : A) : quiet (ret a).
Proof. intros w. by apply traced_ret. Qed.

Lemma quiet_raise {A} e : quiet (@raise A e).
Proof. intros w. by apply traced_raise. Qed.

Lemma quiet_bind {A B} (m : M A) (f : A -> M B) :
  quiet m -> (forall a, quiet (f a)) -> quiet (bind m f).
Proof.
  intros Hm Hf w. eapply traced_bind; [apply Hm|].
  intros a w1 e1 He1. simpl.
  eapply traced_mono; [apply Hf| |]; simpl; intros;
    by apply Forall_app.
Qed.

Lemma quiet_emit e : neutral e -> quiet (emit e).
Proof. intros He w. apply traced_emit. by repeat constructor. Qed.

Lemma quiet_deref h : quiet (deref h).
Proof. intros w. by apply traced_deref. Qed.

Lemma quiet_store h p : quiet (store h p).
Proof. intros w. by apply traced_store. Qed.

Lemma quiet_Popen_poll h : quiet (Popen_poll h).
Proof.
  intros w.
  eapply traced_mono; [by apply (Popen_poll_trace h w (eq []))|..].
  - by intros _ _ evs ->.
  - by intros evs <-.
Qed.

Lemma quiet_Popen_wait h : quiet (Popen_wait h).
Proof.
  intros w. eapply traced_mono; [apply Popen_wait_trace|..].
  - intros _ _ evs ->. by repeat constructor.
  - intros evs ->. by repeat constructor.
Qed.

Lemma quiet_get_output h : quiet (get_output h).
Proof.
  unfold get_output, seek0, read, close, decode.
  apply quiet_bind; [apply quiet_deref|]. intros self.
  destruct (negb (truthy (output self))); [|apply quiet_ret].
  apply quiet_bind; [apply quiet_Popen_wait|]. intros _.
  apply quiet_bind.
  { apply quiet_bind; [apply quiet_deref|]. intros p.
    destruct (closed p); [apply quiet_raise|apply quiet_store]. }
  intros _. apply quiet_bind.
  { apply quiet_bind; [apply quiet_deref|]. intros p.
    destruct (closed p); [apply quiet_raise|].
    apply quiet_bind; [by apply quiet_emit|]. intros _.
    apply quiet_bind; [apply quiet_store|]. intros _. apply quiet_ret. }
  intros raw. apply quiet_bind.
  { destruct (utf8_decode raw); [apply quiet_ret|apply quiet_raise]. }
  intros text. apply quiet_bind; [apply quiet_deref|]. intros self'.
  apply quiet_bind; [apply quiet_store|]. intros _.
  apply quiet_bind; [|intros _; apply quiet_ret].
  apply quiet_bind; [apply quiet_deref|]. intros p. apply quiet_store.
Qed.

Lemma poll_complete_trace pending w :
  traced (poll_complete pending) w (fun _ _ evs => evs = [])
         (fun evs => evs = []).
Proof.
  revert w. induction pending as [|h rest IH]; intros w; simpl.
  - by apply traced_ret.
  - eapply traced_bind; [by apply Popen_poll_trace|].
    intros r w1 e1 ->.
    eapply traced_bind; [apply IH|].
    intros complete w2 e2 ->. by apply traced_ret.
Qed.

Lemma Popen_trace cmd w :
  traced (Popen cmd) w (fun h _ evs => evs = [EvSpawn h cmd])
         (fun evs => evs = []).
Proof.
  unfold traced, Popen.
  destruct (child (length (heap w)) cmd) as [|d st written]; simpl.
  - exists []. by rewrite app_nil_r.
  - by eexists.
Qed.

Lemma Invocation_start_trace inv verbose w :
  traced (Invocation_start inv verbose) w
         (fun _ _ evs =>
            stdouts evs = [] /\ length (spawns evs) = 1%nat /\
            EvSleep ∉ evs)
         (fun evs =>
            stdouts evs = [] /\ (length (spawns evs) <= 1)%nat /\
            EvSleep ∉ evs).
Proof.
  unfold Invocation_start, Process_start.
  assert (Hpre : quiet (if verbose
                        then print_stderr (lit "# " ++ Invocation_str inv)
                        else ret tt)).
  { destruct verbose; [by apply quiet_emit|apply quiet_ret]. }
  eapply traced_bind.
  { eapply traced_mono; [apply Hpre|intros ? ? evs H; exact H|].
    intros evs Hn. simpl.
    rewrite (neutral_stdouts _ Hn), (neutral_spawns _ Hn).
    split; [done|]. split; [simpl; lia|]. by apply neutral_no_sleep. }
  intros u w1 e1 Hn. simpl in Hn.
  pose proof (neutral_stdouts _ Hn) as Ho.
  pose proof (neutral_spawns _ Hn) as Hs.
  pose proof (neutral_no_sleep _ Hn) as Hz.
  eapply traced_bind.
  { eapply traced_mono; [apply Popen_trace|intros ? ? evs H; exact H|].
    intros evs ->. rewrite app_nil_r, Ho, Hs. simpl.
    split; [done|]. split; [lia|done]. }
  intros h w2 e2 ->. simpl.
  assert (stdouts (e1 ++ [EvSpawn h (command inv)]) = [] /\
          length (spawns (e1 ++ [EvSpawn h (command inv)])) = 1%nat /\
          EvSleep ∉ (e1 ++ [EvSpawn h (command inv)])) as (H1 & H2 & H3).
  { rewrite stdouts_app, spawns_app, Ho, Hs. simpl.
    split; [done|]. split; [done|].
    rewrite not_elem_of_app. split; [done|].
    rewrite list_elem_of_singleton. done. }
  eapply traced_bind.
  { apply Popen_poll_trace. rewrite ?app_nil_r.
    split; [exact H1|]. split; [rewrite H2; lia|exact H3]. }
  intros r w3 e3 ->. apply traced_ret. by rewrite ?app_nil_r.
Qed.

Lemma Process_returncode_trace h w (F : list Event -> Prop) :
  F [] -> traced (Process_returncode h) w (fun _ _ evs => evs = []) F.
Proof.
  intros HF. unfold Process_returncode.
  eapply traced_bind; [by apply deref_sp|].
  intros p w1 e1 ->. by apply traced_ret.
Qed.

(** The statements that consume a process, followed by [k]: neutral
    events, then the printed output, then whatever [k] does. *)
Lemma consume_trace {B} h code (k : Z -> M B) w
      (Q : B -> World -> list Event -> Prop) (F : list Event -> Prop) :
  (forall e1, Forall neutral e1 -> F e1) ->
  (forall e1 text, Forall neutral e1 -> F (e1 ++ [EvStdout text])) ->
  (forall e1 text c w',
      Forall neutral e1 ->
      traced (k c) w'
             (fun b w2 e2 => Q b w2 (e1 ++ [EvStdout text] ++ e2))
             (fun e2 => F (e1 ++ [EvStdout text] ++ e2))) ->
  traced (text <- get_output h ;;
          print text ;;
          rc <- Process_returncode h ;;
          exit_code' <- merge_exit_code code rc ;;
          k exit_code') w Q F.
Proof.
  intros HF1 HF2 Hk.
  eapply traced_bind.
  { eapply traced_mono; [apply quiet_get_output| |exact HF1].
    intros ? ? evs H. exact H. }
  intros text w1 e1 Hn. simpl in Hn.
  eapply traced_bind; [apply emit_sp|].
  intros u w2 e2 ->. simpl.
  eapply traced_bind.
  { apply Process_returncode_trace. rewrite ?app_nil_r. by apply HF2. }
  intros rc w3 e3 He3. simpl in He3. subst e3.
  rewrite ?app_nil_r.
  destruct rc as [cur|]; simpl.
  - eapply traced_bind; [apply ret_sp|].
    intros c w4 e4 [-> ->]. rewrite ?app_nil_r.
    eapply traced_mono; [apply (Hk e1 text _ w4 Hn)|..].
    + intros b w5 e5 HQ. rewrite <- ?app_assoc. exact HQ.
    + intros e5 HF. rewrite <- ?app_assoc. exact HF.
  - eapply traced_bind; [apply raise_sp|].
    + rewrite ?app_nil_r. by apply HF2.
    + intros c w4 e4 [].
Qed.

Lemma consumed_shape e1 text e2 :
  Forall neutral e1 ->
  spawns (e1 ++ [EvStdout text] ++ e2) = spawns e2 /\
  stdouts (e1 ++ [EvStdout text] ++ e2) = text :: stdouts e2 /\
  (EvSleep ∉ e2 -> EvSleep ∉ (e1 ++ [EvStdout text] ++ e2)).
Proof.
  intros Hn.
  rewrite !spawns_app, !stdouts_app, (neutral_spawns _ Hn),
    (neutral_stdouts _ Hn). simpl.
  split; [done|]. split; [done|]. intros Hz.
  rewrite not_elem_of_app. split; [by apply neutral_no_sleep|].
  rewrite not_elem_of_cons. done.
Qed.

Lemma drain_trace complete pending code w :
  traced (drain complete pending code) w
         (fun r _ evs =>
            spawns evs = [] /\ (EvSleep ∉ evs) /\
            length (stdouts evs) = length complete /\
            length pending = (length complete + length (fst r))%nat)
         (fun evs => spawns evs = [] /\ EvSleep ∉ evs).
Proof.
  revert pending code w.
  induction complete as [|h rest IH]; intros pending code w; simpl.
  - apply traced_ret. simpl. repeat split; try done.
    apply not_elem_of_nil.
  - destruct (list_remove h pending) as [pending'|] eqn:Hrm.
    + pose proof (list_remove_length _ _ _ Hrm) as Hlen.
      apply consume_trace.
      * intros e1 Hn. split; [by apply neutral_spawns|].
        by apply neutral_no_sleep.
      * intros e1 text Hn.
        destruct (consumed_shape e1 text [] Hn) as (Hs & _ & Hz).
        rewrite app_nil_r in Hs, Hz. split; [done|].
        apply Hz, not_elem_of_nil.
      * intros e1 text c w' Hn.
        eapply traced_mono; [apply IH|..].
        -- intros [pending1 code1] w2 e2 (Hs & Hz & Ho & Hl).
           destruct (consumed_shape e1 text e2 Hn) as (Hs' & Ho' & Hz').
           rewrite Hs', Ho'. simpl in *.
           repeat split; auto. lia.
        -- intros e2 (Hs & Hz).
           destruct (consumed_shape e1 text e2 Hn) as (Hs' & _ & Hz').
           rewrite Hs'. auto.
    + apply traced_raise. split; [done|]. apply not_elem_of_nil.
Qed.

Lemma start_all_trace invs verbose w :
  traced (start_all invs verbose) w
         (fun started _ evs =>
            stdouts evs = [] /\ (EvSleep ∉ evs) /\
            length (spawns evs) = length invs /\
            length started = length invs)
         (fun evs =>
            stdouts evs = [] /\ (EvSleep ∉ evs) /\
            (length (spawns evs) <= length invs)%nat).
Proof.
  revert w. induction invs as [|inv rest IH]; intros w; simpl.
  - apply traced_ret. repeat split; try done. apply not_elem_of_nil.
  - eapply traced_bind.
    { eapply traced_mono; [apply Invocation_start_trace|..].
      - intros ? ? evs H. exact H.
      - intros evs (Ho & Hs & Hz). repeat split; try done. lia. }
    intros h w1 e1 (Ho1 & Hs1 & Hz1).
    eapply traced_bind.
    { eapply traced_mono; [apply IH|..].
      - intros ? ? evs H. exact H.
      - intros e2 (Ho2 & Hz2 & Hs2).
        rewrite stdouts_app, spawns_app, length_app, Ho1, Ho2, Hs1.
        split; [done|]. split; [|lia].
        rewrite not_elem_of_app. done. }
    intros started w2 e2 (Ho2 & Hz2 & Hs2 & Hl2).
    apply traced_ret. rewrite app_nil_r.
    rewrite stdouts_app, spawns_app, length_app, Ho1, Ho2, Hs1, Hs2.
    simpl. rewrite Hl2. repeat split; try done.
    rewrite not_elem_of_app. done.
Qed.

(** The events of one iteration: those of the drain step, those of the
    refill step, and the pause. *)
Lemma loop_body_trace jobs verbose st w :
  traced (loop_body jobs verbose st) w
    (fun st' _ evs =>
       exists e_d e_s,
         evs = e_d ++ e_s ++ [EvSleep] /\
         (EvSleep ∉ e_d) /\ (EvSleep ∉ e_s) /\
         spawns e_d = [] /\ stdouts e_s = [] /\
         (length (stdouts e_d) <= length (pending st))%nat /\
         length (spawns e_s)
         = length (slice_to
                     (jobs - Z.of_nat (length (pending st)
                                       - length (stdouts e_d)))
                     (invocations st)) /\
         length (pending st')
         = (length (pending st) - length (stdouts e_d)
            + length (spawns e_s))%nat)
    (fun evs =>
       exists e_d e_s,
         evs = e_d ++ e_s /\ spawns e_d = [] /\ stdouts e_s = [] /\
         (e_s = [] \/
          (length (stdouts e_d) <= length (pending st))%nat /\
          (length (spawns e_s)
           <= length (slice_to
                        (jobs - Z.of_nat (length (pending st)
                                          - length (stdouts e_d)))
                        (invocations st)))%nat)).
Proof.
  unfold loop_body.
  eapply traced_bind.
  { eapply traced_mono; [apply poll_complete_trace|..].
    - intros ? ? evs H. exact H.
    - intros evs ->. exists [], []. auto. }
  intros complete w1 e1 ->.
  eapply traced_bind.
  { eapply traced_mono; [apply drain_trace|..].
    - intros ? ? evs H. exact H.
    - intros e_d (Hs & Hz). exists e_d, []. rewrite app_nil_r. auto. }
  intros [pending1 code1] w2 e_d (Hs & Hz & Ho & Hl). simpl in *.
  assert (length pending1
          = (length (pending st) - length (stdouts e_d))%nat) as Hp1
      by lia.
  rewrite Hp1.
  eapply traced_bind.
  { eapply traced_mono; [apply start_all_trace|..].
    - intros ? ? evs H. exact H.
    - intros e_s (Ho' & Hz' & Hs'). exists e_d, e_s.
      repeat split; try done. right. split; [lia|done]. }
  intros started w3 e_s (Ho' & Hz' & Hs' & Hl').
  eapply traced_bind; [apply sleep_sp|].
  intros u w4 e4 ->. apply traced_ret.
  exists e_d, e_s. rewrite ?app_nil_r, <- ?app_assoc. simpl.
  repeat split; try done; try lia.
  rewrite length_app. lia.
Qed.

Lemma in_flight_no_spawn evs :
  spawns evs = [] -> in_flight evs = - Z.of_nat (length (stdouts evs)).
Proof. intros Hs. unfold in_flight. rewrite Hs. simpl. lia. Qed.

Lemma in_flight_no_stdout evs :
  stdouts evs = [] -> in_flight evs = Z.of_nat (length (spawns evs)).
Proof. intros Ho. unfold in_flight. rewrite Ho. simpl. lia. Qed.

Lemma loop_body_peak jobs verbose st w :
  Z.of_nat (length (pending st)) <= jobs ->
  traced (loop_body jobs verbose st) w
    (fun st' _ evs =>
       peak (Z.of_nat (length (pending st))) jobs evs /\
       Z.of_nat (length (pending st)) + in_flight evs
       = Z.of_nat (length (pending st')) /\
       Z.of_nat (length (pending st')) <= jobs)
    (peak (Z.of_nat (length (pending st))) jobs).
Proof.
  intros Hb. eapply traced_mono; [apply loop_body_trace|..].
  - intros st' w' evs
      (e_d & e_s & -> & Hz & Hz' & Hs & Ho & Hle & Hsp & Hlen).
    pose proof (in_flight_no_spawn _ Hs) as Hd.
    pose proof (in_flight_no_stdout _ Ho) as Hr.
    pose proof (slice_to_length
                  (jobs - Z.of_nat (length (pending st)
                                    - length (stdouts e_d)))
                  (invocations st)) as Hcap.
    rewrite <- Hsp in Hcap.
    assert (in_flight [EvSleep] = 0) as Hsl by done.
    split; [|split].
    + apply peak_app; [by apply peak_no_spawn|].
      apply peak_app; [apply peak_no_stdout; [done|lia]|].
      apply peak_no_spawn; [done|lia].
    + rewrite !in_flight_app. lia.
    + lia.
  - intros evs (e_d & e_s & -> & Hs & Ho & Hcase).
    pose proof (in_flight_no_spawn _ Hs) as Hd.
    apply peak_app; [by apply peak_no_spawn|].
    destruct Hcase as [->|[Hle Hsp]].
    + apply peak_nil. lia.
    + pose proof (slice_to_length
                    (jobs - Z.of_nat (length (pending st)
                                      - length (stdouts e_d)))
                    (invocations st)) as Hcap.
      apply peak_no_stdout; [done|]. lia.
Qed.

Lemma execute_loop_trace fuel jobs verbose st w :
  Z.of_nat (length (pending st)) <= jobs ->
  traced (execute_loop fuel jobs verbose st) w
         (fun _ _ evs => peak (Z.of_nat (length (pending st))) jobs evs)
         (peak (Z.of_nat (length (pending st))) jobs).
Proof.
  revert st w. induction fuel as [|fuel IH]; intros st w Hb.
  - simpl. destruct (invocations st), (pending st);
      try (by apply traced_ret, peak_nil);
      (exists []; simpl; rewrite app_nil_r; split; [done|];
       by apply peak_nil).
  - destruct (decide (invocations st = [] /\ pending st = []))
      as [[Hi Hp]|Hc].
    + rewrite execute_loop_done by done. by apply traced_ret, peak_nil.
    + rewrite execute_loop_step
        by (destruct (invocations st), (pending st); auto;
            by destruct Hc).
      eapply traced_bind; [by apply loop_body_peak|].
      intros st' w1 e1 (Hpk & Hfl & Hb'). simpl.
      eapply traced_mono; [by apply IH|..].
      * intros c w2 e2 Hpk2. apply peak_app; [done|]. by rewrite Hfl.
      * intros e2 Hpk2. apply peak_app; [done|]. by rewrite Hfl.
Qed.

Lemma execute_sequential_trace invs verbose code w :
  traced (execute_sequential invs verbose code) w
         (fun _ _ evs => peak 0 1 evs /\ in_flight evs = 0)
         (peak 0 1).
Proof.
  revert code w. induction invs as [|inv rest IH]; intros code w; simpl.
  - apply traced_ret. split; [by apply peak_nil|done].
  - eapply traced_bind.
    { eapply traced_mono; [apply Invocation_start_trace|..].
      - intros ? ? evs H. exact H.
      - intros evs (Ho & Hs & _). apply peak_no_stdout; [done|lia]. }
    intros h w1 e1 (Ho & Hs & _).
    assert (peak 0 1 e1) as Hp1 by (apply peak_no_stdout; [done|lia]).
    assert (in_flight e1 = 1) as Hf1
        by (rewrite in_flight_no_stdout by done; lia).
    apply consume_trace.
    + intros e2 Hn. apply peak_app; [done|].
      apply peak_no_spawn; [by apply neutral_spawns|lia].
    + intros e2 text Hn. apply peak_app; [done|].
      apply peak_no_spawn; [|lia].
      rewrite spawns_app, (neutral_spawns _ Hn). done.
    + intros e2 text c w' Hn.
      destruct (consumed_shape e2 text [] Hn) as (Hs2 & Ho2 & _).
      rewrite app_nil_r in Hs2, Ho2. simpl in Hs2.
      assert (in_flight (e2 ++ [EvStdout text]) = -1) as Hf2.
      { unfold in_flight. rewrite Hs2, Ho2. simpl. lia. }
      assert (peak 0 1 (e1 ++ e2 ++ [EvStdout text])) as Hp2.
      { apply peak_app; [done|]. apply peak_no_spawn; [done|lia]. }
      eapply traced_mono; [apply IH|..].
      * intros c3 w3 e3 (Hp3 & Hf3).
        replace (e1 ++ e2 ++ [EvStdout text] ++ e3)
          with ((e1 ++ e2 ++ [EvStdout text]) ++ e3)
          by (by rewrite <- !app_assoc).
        split.
        -- apply peak_app; [done|].
           rewrite (in_flight_app e1), Hf1, Hf2. exact Hp3.
        -- rewrite in_flight_app, (in_flight_app e1), Hf1, Hf2, Hf3.
           done.
      * intros e3 Hp3.
        replace (e1 ++ e2 ++ [EvStdout text] ++ e3)
          with ((e1 ++ e2 ++ [EvStdout text]) ++ e3)
          by (by rewrite <- !app_assoc).
        apply peak_app; [done|].
        rewrite (in_flight_app e1), Hf1, Hf2. exact Hp3.
Qed.

(** ** The claims about [execute] and [main] *)

(** C4: for every list of invocations and every parallelism of at least
    one, provided every child can be launched, terminates and writes valid
    UTF-8, [execute] returns (with enough fuel for the loop), having
    launched every invocation exactly once, in order, and printed every
    output exactly once. *)
Theorem execute_each_invocation_once {L} invs verbose jobs
        (max_load_average : L) w :
  1 <= jobs ->
  Forall well_behaved (outcomes (length (heap w)) invs) ->
  exists fuel0, forall fuel, (fuel0 <= fuel)%nat ->
    exists code w' evs,
      execute fuel invs verbose jobs max_load_average w = Done code w' /\
      log w' = log w ++ evs /\
      spawns evs = launches (length (heap w)) invs /\
      stdouts evs ≡ₚ out_text <$> outcomes (length (heap w)) invs.
Proof.
  intros Hjobs Hwb. exists (work_left (mkLoop invs [] 0) w).
  intros fuel Hfuel.
  destruct (execute_ok invs verbose jobs max_load_average w fuel
              Hjobs Hwb Hfuel)
    as (code & w' & evs & Hrun & Hlog & Hsp & Hout & _).
  by exists code, w', evs.
Qed.

(** C5: with a parallelism of one the outputs are printed in the order
    in which the invocations were supplied: the sequence of printed texts
    is, element for element, the sequence of the invocations' outputs. *)
Theorem execute_sequential_output_order {L} invs verbose
        (max_load_average : L) fuel w :
  Forall well_behaved (outcomes (length (heap w)) invs) ->
  exists code w' evs,
    execute fuel invs verbose 1 max_load_average w = Done code w' /\
    log w' = log w ++ evs /\
    spawns evs = launches (length (heap w)) invs /\
    stdouts evs = out_text <$> outcomes (length (heap w)) invs.
Proof.
  intros Hwb. unfold execute. simpl.
  destruct (execute_sequential_ok invs verbose 0 w Hwb)
    as (w' & evs & Hrun & Hlog & Hsp & Hout & _).
  by eexists _, w', evs.
Qed.

(** C7: when no tool path is configured ([None] or the empty string),
    [main] writes the error message to the diagnostic stream and returns 1:
    no process is launched and nothing is printed on standard output. *)
Theorem main_without_tool_path {L X} fuel source_path tidy_executable
        verbose jobs (max_load_average : L) (extra_args : X) w :
  truthy tidy_executable = false ->
  exists w' evs,
    main fuel source_path tidy_executable verbose jobs max_load_average
         extra_args w = Done 1 w' /\
    log w' = log w ++ evs /\
    evs = [EvStderr (lit "error: clang-tidy executable not found")] /\
    heap w' = heap w /\
    spawns evs = [] /\ stdouts evs = [].
Proof.
  intros Hf. unfold main. rewrite Hf. simpl.
  eexists _, _. split; [reflexivity|]. simpl. done.
Qed.

(** C9: [max_load_average] is a no-op: two runs of [execute] that differ
    only in that argument return the same exit code and produce the same
    output (they end in the same world). *)
Theorem max_load_average_is_ignored {L1 L2} fuel invs verbose jobs
        (load1 : L1) (load2 : L2) w :
  execute fuel invs verbose jobs load1 w
  = execute fuel invs verbose jobs load2 w.
Proof. reflexivity. Qed.

Lemma traced_any {A} (m : M A) w
      (Q : A -> World -> list Event -> Prop)
      (F P : list Event -> Prop) :
  traced m w Q F ->
  (forall a w' evs, Q a w' evs -> P evs) ->
  (forall evs, F evs -> P evs) ->
  exists evs, log (final (m w)) = log w ++ evs /\ P evs.
Proof.
  intros (evs & Hlog & Hm) HQ HF. exists evs. split; [done|].
  destruct (m w); eauto.
Qed.

(** C6: with a parallelism of [jobs >= 1], an iteration of the loop that
    starts with at most [jobs] pending handles ends with at most [jobs]
    pending handles; and in every run of [execute], however it ends, the
    number of processes started and not yet drained is at most [jobs] at
    every instant of the log. *)
Theorem pending_never_exceeds_parallelism {L} jobs verbose :
  1 <= jobs ->
  (forall st w st' w',
      Z.of_nat (length (pending st)) <= jobs ->
      loop_body jobs verbose st w = Done st' w' ->
      Z.of_nat (length (pending st')) <= jobs) /\
  (forall fuel invs (max_load_average : L) w,
      exists evs,
        log (final (execute fuel invs verbose jobs max_load_average w))
        = log w ++ evs /\
        peak 0 jobs evs).
Proof.
  intros Hjobs. split.
  - intros st w st' w' Hb Hrun.
    destruct (traced_result _ _ _ _ _ _ (loop_body_peak _ verbose _ w Hb)
                            Hrun) as (evs & _ & _ & _ & Hle).
    exact Hle.
  - intros fuel invs mla w. unfold execute.
    destruct (Z.eqb_spec jobs 1) as [->|Hne].
    + eapply traced_any; [apply execute_sequential_trace|..].
      * by intros c w' evs [Hp _].
      * done.
    + eapply traced_any.
      * apply (execute_loop_trace fuel jobs verbose (mkLoop invs [] 0)).
        simpl. lia.
      * by intros c w' evs Hp.
      * done.
Qed.

(** C8, as the code has it: every iteration of the loop that runs to its
    end pauses exactly once, as its last action, whether or not the drain
    step or the refill step made progress. *)
Theorem loop_body_always_yields jobs verbose st w st' w' :
  loop_body jobs verbose st w = Done st' w' ->
  exists evs, log w' = log w ++ evs ++ [EvSleep] /\ EvSleep ∉ evs.
Proof.
  intros Hrun.
  destruct (traced_result _ _ _ _ _ _ (loop_body_trace jobs verbose st w)
                          Hrun)
    as (evs & Hlog & e_d & e_s & -> & Hz & Hz' & _).
  exists (e_d ++ e_s). split.
  - by rewrite Hlog, <- app_assoc.
  - by rewrite not_elem_of_app.
Qed.

(** ** Facts shared by the properties below *)

Lemma get_output_blocked w h p :
  heap w !! h = Some p ->
  truthy (output p) = false ->
  returncode p = None -> finish p = None ->
  get_output h w
  = Blocked (mkWorld (clock w) (heap w) (log w ++ [EvWait h])).
Proof.
  intros Hp Ho Hrc Hfin. unfold get_output.
  rewrite (bind_done _ _ _ _ _ (deref_done _ _ _ Hp)), Ho. simpl.
  unfold Popen_wait, emit, deref, bind. simpl.
  rewrite Hp. simpl. by rewrite Hrc, Hfin.
Qed.

Lemma Invocation_start_fails inv verbose w :
  child (length (heap w)) (command inv) = LaunchFails ->
  exists w',
    Invocation_start inv verbose w = Raised OSError w' /\
    heap w' = heap w /\ clock w' = clock w /\
    log w'
    = log w ++ (if verbose
                then [EvStderr (lit "# " ++ Invocation_str inv)]
                else []).
Proof.
  intros Hc. unfold Invocation_start, Process_start, bind, Popen.
  destruct verbose; simpl; rewrite Hc.
  - by eexists.
  - exists w. by rewrite app_nil_r.
Qed.

Lemma scan_member source_path (p : str) :
  p ∈ scan source_path <->
  exists root dirs files file,
    (root, dirs, files) ∈ os_walk source_path /\
    file ∈ files /\ is_source_file file = true /\
    p = os_path_join root file.
Proof.
  unfold scan. rewrite list_elem_of_bind. split.
  - intros ([[root dirs] files] & Hp & Hw).
    apply list_elem_of_bind in Hp as (file & Hp & Hf).
    apply list_elem_of_filter in Hf as [Hsrc Hf].
    apply list_elem_of_singleton in Hp.
    by exists root, dirs, files, file.
  - intros (root & dirs & files & file & Hw & Hf & Hsrc & ->).
    exists (root, dirs, files). split; [|done].
    apply list_elem_of_bind. exists file. split.
    + by apply list_elem_of_singleton.
    + by apply list_elem_of_filter.
Qed.

(** ** Further properties of the exit-code merge rule *)

(** X1: 0 is neutral for [worst_exit_code] on both sides, the rule is
    idempotent, and its result is always one of its two arguments. *)
Theorem worst_exit_code_neutral_selective (a b : Z) :
  worst_exit_code 0 a = a /\ worst_exit_code a 0 = a /\
  worst_exit_code a a = a /\
  (worst_exit_code a b = a \/ worst_exit_code a b = b).
Proof. repeat split; worst_cases. Qed.

Lemma fold_left_worst_neg (l : list Z) (a : Z) :
  a < 0 ->
  fold_left worst_exit_code l a < 0 /\
  fold_left worst_exit_code l a <= a /\
  (forall x, x ∈ l -> fold_left worst_exit_code l a <= x) /\
  (fold_left worst_exit_code l a = a \/
   fold_left worst_exit_code l a ∈ l).
Proof.
  revert a. induction l as [|y l IH]; intros a Ha; simpl.
  - repeat split; try lia; auto. intros x Hx. by apply elem_of_nil in Hx.
  - assert (worst_exit_code a y < 0 /\ worst_exit_code a y <= a /\
            worst_exit_code a y <= y /\
            (worst_exit_code a y = a \/ worst_exit_code a y = y))
      as (Hn & Hle & Hy & Hsel) by (repeat split; worst_cases).
    destruct (IH _ Hn) as (H1 & H2 & H3 & H4).
    split; [done|]. split; [lia|]. split.
    + intros x Hx. apply elem_of_cons in Hx as [->|Hx]; [lia|auto].
    + destruct H4 as [H4|H4]; [|right; by right].
      rewrite H4. destruct Hsel as [->| ->]; [by left|right; left].
Qed.

Lemma fold_left_worst_nonneg (l : list Z) (a : Z) :
  0 <= a -> Forall (fun x => 0 <= x) l ->
  a <= fold_left worst_exit_code l a /\
  (forall x, x ∈ l -> x <= fold_left worst_exit_code l a) /\
  (fold_left worst_exit_code l a = a \/
   fold_left worst_exit_code l a ∈ l).
Proof.
  revert a. induction l as [|y l IH]; intros a Ha Hall; simpl.
  - repeat split; try lia; auto. intros x Hx. by apply elem_of_nil in Hx.
  - apply Forall_cons in Hall as [Hy Hall].
    assert (0 <= worst_exit_code a y /\ a <= worst_exit_code a y /\
            y <= worst_exit_code a y /\
            (worst_exit_code a y = a \/ worst_exit_code a y = y))
      as (Hn & Hle & Hy' & Hsel) by (repeat split; worst_cases).
    destruct (IH _ Hn Hall) as (H1 & H3 & H4).
    split; [lia|]. split.
    + intros x Hx. apply elem_of_cons in Hx as [->|Hx]; [lia|auto].
    + destruct H4 as [H4|H4]; [|right; by right].
      rewrite H4. destruct Hsel as [->| ->]; [by left|right; left].
Qed.

(** X2: the aggregated exit code is 0 exactly when every child exited
    with status 0. *)
Theorem fold_exit_codes_zero (codes : list Z) :
  fold_exit_codes codes = 0 <-> Forall (fun c => c = 0) codes.
Proof.
  unfold fold_exit_codes. split.
  - intros Hz. apply Forall_forall. intros x Hx.
    destruct (decide (Forall (fun x => 0 <= x) codes)) as [Hall|Hneg].
    + destruct (fold_left_worst_nonneg codes 0 ltac:(lia) Hall)
        as (_ & Hmax & _).
      rewrite Forall_forall in Hall.
      specialize (Hmax x Hx). specialize (Hall x Hx). lia.
    + apply not_Forall_Exists in Hneg; [|intros y; apply _].
      apply Exists_exists in Hneg as (y & Hy & Hlt). simpl in Hlt.
      apply list_elem_of_split in Hy as (l1 & l2 & ->).
      rewrite (fold_left_worst_perm _ (y :: l1 ++ l2)) in Hz
        by (by rewrite Permutation_middle).
      simpl in Hz.
      assert (worst_exit_code 0 y < 0) as Hn by worst_cases.
      destruct (fold_left_worst_neg (l1 ++ l2) _ Hn) as (Hlt' & _).
      lia.
  - intros Hall. induction Hall as [|x l -> _ IH]; [done|].
    simpl. exact IH.
Qed.

(** X3: when some child ended with a negative status, the aggregated code
    is the least status of the list; when none did, it is the greatest
    status, or 0 for an empty list. *)
Theorem fold_exit_codes_extreme (codes : list Z) :
  (Exists (fun c => c < 0) codes ->
   fold_exit_codes codes ∈ codes /\
   forall c, c ∈ codes -> fold_exit_codes codes <= c) /\
  (Forall (fun c => 0 <= c) codes ->
   (fold_exit_codes codes = 0 \/ fold_exit_codes codes ∈ codes) /\
   0 <= fold_exit_codes codes /\
   forall c, c ∈ codes -> c <= fold_exit_codes codes).
Proof.
  unfold fold_exit_codes. split.
  - intros Hneg.
    apply Exists_exists in Hneg as (y & Hy & Hlt).
    pose proof Hy as Hy'.
    apply list_elem_of_split in Hy as (l1 & l2 & Heq).
    assert (codes ≡ₚ y :: l1 ++ l2) as Hp
        by (by rewrite Heq, Permutation_middle).
    rewrite (fold_left_worst_perm _ _ 0 Hp). simpl.
    assert (worst_exit_code 0 y = y) as -> by worst_cases.
    destruct (fold_left_worst_neg (l1 ++ l2) y Hlt)
      as (_ & Hle & Hmin & Hsel).
    split.
    + destruct Hsel as [->|Hin]; [done|].
      rewrite Hp. by right.
    + intros c Hc. rewrite Hp in Hc.
      apply elem_of_cons in Hc as [->|Hc]; auto.
  - intros Hall.
    destruct (fold_left_worst_nonneg codes 0 ltac:(lia) Hall)
      as (H0 & Hmax & Hsel).
    done.
Qed.

(** ** Further properties of [execute] *)

(** X4: under well-behaved children, and for every parallelism of at
    least one, the value [execute] returns is the fold of the merge rule,
    from 0, over the children's exit statuses in invocation order. *)
Theorem execute_exit_code {L} invs verbose jobs (max_load_average : L) w :
  1 <= jobs ->
  Forall well_behaved (outcomes (length (heap w)) invs) ->
  exists fuel0, forall fuel, (fuel0 <= fuel)%nat ->
    exists w',
      execute fuel invs verbose jobs max_load_average w
      = Done (fold_exit_codes
                (out_status <$> outcomes (length (heap w)) invs)) w'.
Proof.
  intros Hjobs Hwb. exists (work_left (mkLoop invs [] 0) w).
  intros fuel Hfuel.
  destruct (execute_ok invs verbose jobs max_load_average w fuel
              Hjobs Hwb Hfuel)
    as (code & w' & evs & Hrun & _ & _ & _ & ->).
  by exists w'.
Qed.

(** X5: two runs over the same worklist with well-behaved children
    return the same exit code and print the same outputs, up to their
    order, whatever their parallelism and verbosity. *)
Theorem execute_independent_of_jobs_and_verbose {L}
        invs verbose1 verbose2 jobs1 jobs2 (max_load_average : L) w :
  1 <= jobs1 -> 1 <= jobs2 ->
  Forall well_behaved (outcomes (length (heap w)) invs) ->
  exists fuel0, forall fuel, (fuel0 <= fuel)%nat ->
    exists code w1 w2 evs1 evs2,
      execute fuel invs verbose1 jobs1 max_load_average w = Done code w1 /\
      execute fuel invs verbose2 jobs2 max_load_average w = Done code w2 /\
      log w1 = log w ++ evs1 /\ log w2 = log w ++ evs2 /\
      stdouts evs1 ≡ₚ stdouts evs2 /\ spawns evs1 = spawns evs2.
Proof.
  intros Hj1 Hj2 Hwb. exists (work_left (mkLoop invs [] 0) w).
  intros fuel Hfuel.
  destruct (execute_ok invs verbose1 jobs1 max_load_average w fuel
              Hj1 Hwb Hfuel)
    as (code1 & w1 & evs1 & Hrun1 & Hlog1 & Hsp1 & Hout1 & ->).
  destruct (execute_ok invs verbose2 jobs2 max_load_average w fuel
              Hj2 Hwb Hfuel)
    as (code2 & w2 & evs2 & Hrun2 & Hlog2 & Hsp2 & Hout2 & ->).
  eexists _, w1, w2, evs1, evs2.
  split; [exact Hrun1|]. split; [exact Hrun2|].
  split; [done|]. split; [done|].
  split; [by rewrite Hout1, Hout2|congruence].
Qed.

(** X6: with an empty worklist [execute] returns 0 at once, in both
    regimes and without any fuel: nothing is launched, printed or
    logged. *)
Theorem execute_empty {L} fuel verbose jobs (max_load_average : L) w :
  execute fuel [] verbose jobs max_load_average w = Done 0 w.
Proof. unfold execute. destruct (jobs =? 1); [done|by destruct fuel]. Qed.

Lemma slice_from_nonempty {A} c (l : list A) :
  c <= 0 -> l <> [] -> slice_from c l <> [].
Proof.
  intros Hc Hl Hnil. apply (f_equal length) in Hnil.
  unfold slice_from, slice_index in Hnil.
  rewrite length_drop in Hnil. simpl in Hnil.
  assert (0 < length l)%nat by (destruct l; [done|simpl; lia]).
  destruct (Z.ltb_spec c 0); lia.
Qed.

Lemma loop_body_worklist jobs verbose st w st' w' :
  loop_body jobs verbose st w = Done st' w' ->
  exists n : nat,
    invocations st'
    = slice_from (jobs - Z.of_nat n) (invocations st).
Proof.
  unfold loop_body, bind.
  destruct (poll_complete (pending st) w) as [complete w1| | |];
    try done.
  destruct (drain complete (pending st) (exit_code st) w1)
    as [[pending1 code1] w2| | |]; try done. simpl.
  destruct (start_all _ verbose w2) as [started w3| | |]; try done.
  simpl. intros [= <- <-]. by eexists.
Qed.

Lemma execute_loop_never_returns fuel jobs verbose st w code w' :
  jobs <= 0 -> invocations st <> [] ->
  execute_loop fuel jobs verbose st w <> Done code w'.
Proof.
  intros Hjobs. revert st w.
  induction fuel as [|fuel IH]; intros st w Hne.
  - simpl. by destruct (invocations st), (pending st).
  - rewrite execute_loop_step by auto. unfold bind.
    destruct (loop_body jobs verbose st w) as [st1 w1| | |] eqn:Hbody;
      try done.
    apply IH.
    destruct (loop_body_worklist _ _ _ _ _ _ Hbody) as (n & ->).
    apply slice_from_nonempty; [lia|done].
Qed.

(** X7: with a parallelism of 0 or less and a non-empty worklist the
    loop never ends: [invocations[capacity:]] with a non-positive
    capacity always keeps at least the last invocation, so no amount of
    fuel makes [execute] return. *)
Theorem execute_nonpositive_jobs_never_returns {L} fuel invs verbose jobs
        (max_load_average : L) w code w' :
  jobs <= 0 -> invs <> [] ->
  execute fuel invs verbose jobs max_load_average w <> Done code w'.
Proof.
  intros Hjobs Hne. unfold execute.
  destruct (Z.eqb_spec jobs 1) as [->|_]; [lia|].
  by apply execute_loop_never_returns.
Qed.

(** ** Further properties of the process handle *)

(** X8: [get_output] on a process whose child never terminates blocks
    for ever, right after entering [wait]: nothing is read and nothing is
    cached. *)
Theorem get_output_blocks_on_hung_child w h p :
  heap w !! h = Some p ->
  truthy (output p) = false ->
  returncode p = None -> finish p = None ->
  get_output h w
  = Blocked (mkWorld (clock w) (heap w) (log w ++ [EvWait h])).
Proof. exact (get_output_blocked w h p). Qed.

(** X9: when the captured bytes are not valid UTF-8, [get_output] raises
    [UnicodeDecodeError] after waiting and reading; the capture file is
    left open and nothing is cached. *)
Theorem get_output_invalid_utf8 w h p t :
  heap w !! h = Some p ->
  output p = None -> closed p = false -> finish p = Some t ->
  utf8_decode (content p) = None ->
  exists w' p',
    get_output h w = Raised UnicodeDecodeError w' /\
    log w' = log w ++ [EvWait h; EvRead h] /\
    heap w' !! h = Some p' /\
    output p' = None /\ closed p' = false.
Proof.
  intros Hp Ho Hcl Hfin Hdec.
  pose proof (lookup_lt_Some _ _ _ Hp) as Hlt.
  destruct p as [av fi sta co rc po cl ou]; simpl in *; subst.
  unfold get_output.
  rewrite (bind_done _ _ _ _ _ (deref_done _ _ _ Hp)). simpl.
  unfold Popen_wait, seek0, read, decode, store, emit, deref, bind, ret,
    raise; simpl.
  rewrite Hp; simpl.
  destruct rc as [r|]; simpl.
  - rewrite Hp; simpl.
    rewrite !list_lookup_insert_eq by (by rewrite ?length_insert); simpl.
    rewrite drop_0, Hdec.
    eexists _, _. split; [reflexivity|]. simpl.
    split; [by rewrite <- app_assoc|].
    split; [apply list_lookup_insert_eq; by rewrite ?length_insert|].
    done.
  - rewrite !list_lookup_insert_eq by (by rewrite ?length_insert); simpl.
    rewrite !list_lookup_insert_eq by (by rewrite ?length_insert); simpl.
    rewrite drop_0, Hdec.
    eexists _, _. split; [reflexivity|]. simpl.
    split; [by rewrite <- app_assoc|].
    split; [apply list_lookup_insert_eq; by rewrite ?length_insert|].
    done.
Qed.

(** X10: [poll] on a live handle never blocks and never raises, and it
    leaves the clock and the log alone; once it has reported an exit
    status, every later [poll] reports the same status and changes
    nothing. *)
Theorem Process_poll_nonblocking_stable w h :
  (h < length (heap w))%nat ->
  exists r w1,
    Process_poll h w = Done r w1 /\
    clock w1 = clock w /\ log w1 = log w /\
    (forall rc, r = Some rc -> Process_poll h w1 = Done (Some rc) w1).
Proof.
  intros Hlt. destruct (lookup_lt_is_Some_2 _ _ Hlt) as [p Hp].
  unfold Process_poll, Popen_poll.
  rewrite (bind_done _ _ _ _ _ (deref_done _ _ _ Hp)).
  destruct (returncode p) as [rc0|] eqn:Hrc.
  - exists (Some rc0), w. repeat split; try done.
    intros rc [= <-].
    rewrite (bind_done _ _ _ _ _ (deref_done _ _ _ Hp)).
    by rewrite Hrc.
  - destruct (finish p) as [t|] eqn:Hfin.
    + destruct (Nat.leb_spec t (clock w)) as [Hle|Hgt].
      * eexists (Some (status p)), _. split; [reflexivity|]. simpl.
        split; [done|]. split; [done|]. intros rc [= <-].
        unfold bind, deref. simpl.
        by rewrite list_lookup_insert_eq.
      * exists None, w. repeat split; done.
    + exists None, w. repeat split; done.
Qed.

(** X11: when the program cannot be launched, [Invocation.start] raises
    [OSError]: no process object is created, and nothing but the verbose
    echo has been logged. *)
Theorem Invocation_start_launch_failure inv verbose w :
  child (length (heap w)) (command inv) = LaunchFails ->
  exists w',
    Invocation_start inv verbose w = Raised OSError w' /\
    heap w' = heap w /\ clock w' = clock w /\
    log w'
    = log w ++ (if verbose
                then [EvStderr (lit "# " ++ Invocation_str inv)]
                else []).
Proof. exact (Invocation_start_fails inv verbose w). Qed.

(** X12: a successful [Invocation.start] returns a fresh handle, the size
    of the heap, and logs exactly the launch, preceded by the echo of the
    command line on the diagnostic stream when [verbose] is set. *)
Theorem Invocation_start_events inv verbose w o :
  child (length (heap w)) (command inv) = o ->
  (exists d st written, o = Runs d st written) ->
  exists w',
    Invocation_start inv verbose w = Done (length (heap w)) w' /\
    length (heap w') = S (length (heap w)) /\
    log w'
    = log w
      ++ (if verbose
          then [EvStderr (lit "# " ++ join (lit " ") (command inv))]
          else [])
      ++ [EvSpawn (length (heap w)) (command inv)].
Proof.
  intros Ho (d & st & written & ->).
  unfold Invocation_start, Process_start.
  assert (forall w0,
             heap w0 = heap w ->
             exists w',
               (process <- Popen (command inv) ;;
                Popen_poll process ;; ret process) w0
               = Done (length (heap w)) w' /\
               length (heap w') = S (length (heap w)) /\
               log w' = log w0
                        ++ [EvSpawn (length (heap w)) (command inv)])
    as Hstart.
  { intros w0 Hheap. unfold bind at 1. unfold Popen.
    rewrite Hheap, Ho.
    unfold bind at 1. unfold Popen_poll, bind at 1, deref. simpl.
    rewrite lookup_app_r, Nat.sub_diag by done. simpl.
    destruct d as [d|]; simpl.
    - destruct (clock w0 + d <=? clock w0)%nat.
      + eexists. unfold store, bind, ret. simpl.
        split; [reflexivity|]. simpl.
        by rewrite length_insert, length_app, Nat.add_1_r.
      + eexists. split; [reflexivity|]. simpl.
        by rewrite length_app, Nat.add_1_r.
    - eexists. split; [reflexivity|]. simpl.
      by rewrite length_app, Nat.add_1_r. }
  destruct verbose.
  - destruct (Hstart (mkWorld (clock w) (heap w)
                              (log w ++ [EvStderr (lit "# "
                                 ++ Invocation_str inv)])) eq_refl)
      as (w' & Hrun & Hlen & Hlog).
    exists w'. split; [exact Hrun|]. split; [done|].
    rewrite Hlog. simpl. by rewrite <- app_assoc.
  - destruct (Hstart w eq_refl) as (w' & Hrun & Hlen & Hlog).
    exists w'. split; [|done].
    unfold bind at 1. simpl. exact Hrun.
Qed.

(** ** Launch failures in the sequential regime *)

Lemma execute_sequential_prefix pre rest verbose code w :
  Forall well_behaved (outcomes (length (heap w)) pre) ->
  exists w' evs,
    execute_sequential (pre ++ rest) verbose code w
    = execute_sequential rest verbose
        (fold_left worst_exit_code
                   (out_status <$> outcomes (length (heap w)) pre) code)
        w' /\
    log w' = log w ++ evs /\
    spawns evs = launches (length (heap w)) pre /\
    stdouts evs = out_text <$> outcomes (length (heap w)) pre /\
    length (heap w') = (length (heap w) + length pre)%nat.
Proof.
  revert code w. induction pre as [|inv pre IH]; intros code w Hwb.
  - exists w, []. simpl. rewrite app_nil_r, Nat.add_0_r. done.
  - rewrite outcomes_cons in *. apply Forall_cons in Hwb as [Hwb1 Hwb2].
    destruct (Invocation_start_ok inv verbose w _ eq_refl Hwb1)
      as (w1 & e1 & Hstart & Hlog1 & Hsp1 & Hout1 & _ & Hlen1 & _ & Hr).
    simpl app. simpl execute_sequential.
    rewrite (bind_done _ _ _ _ _ Hstart).
    destruct (consume_ready _ code
                (execute_sequential (pre ++ rest) verbose) _ _ _ _ Hr)
      as (w2 & Hrun & Hlog2 & _ & Hlen2 & _).
    rewrite Hrun.
    rewrite <- Hlen1, <- Hlen2 in Hwb2.
    destruct (IH (worst_exit_code code
                    (out_status (child (length (heap w)) (command inv))))
                 w2 Hwb2)
      as (w3 & e3 & Hrest & Hlog3 & Hsp3 & Hout3 & Hlen3).
    rewrite Hlen2, Hlen1 in *.
    exists w3, (e1 ++ [EvWait (length (heap w)); EvRead (length (heap w));
                       EvStdout (out_text
                          (child (length (heap w)) (command inv)))]
                   ++ e3).
    split; [by rewrite Hrest|].
    split; [by rewrite Hlog3, Hlog2, Hlog1, <- !app_assoc|].
    rewrite launches_cons, !spawns_app, !stdouts_app, Hsp1, Hout1, Hsp3,
      Hout3.
    split; [done|]. split; [done|]. simpl. lia.
Qed.

(** X13: in the sequential regime a launch failure is fatal: when the
    invocations before [bad] are well-behaved and [bad] cannot be
    launched, [execute] raises [OSError]; by then exactly the invocations
    before [bad] have been launched and their outputs printed, in order,
    and no later invocation is ever started. *)
Theorem execute_sequential_launch_failure {L} pre bad post verbose
        (max_load_average : L) fuel w :
  Forall well_behaved (outcomes (length (heap w)) pre) ->
  child (length (heap w) + length pre) (command bad) = LaunchFails ->
  exists w' evs,
    execute fuel (pre ++ bad :: post) verbose 1 max_load_average w
    = Raised OSError w' /\
    log w' = log w ++ evs /\
    spawns evs = launches (length (heap w)) pre /\
    stdouts evs = out_text <$> outcomes (length (heap w)) pre.
Proof.
  intros Hwb Hbad. unfold execute. simpl.
  destruct (execute_sequential_prefix pre (bad :: post) verbose 0 w Hwb)
    as (w1 & e1 & Hrun & Hlog1 & Hsp1 & Hout1 & Hlen1).
  rewrite Hrun. rewrite <- Hlen1 in Hbad.
  destruct (Invocation_start_fails bad verbose w1 Hbad)
    as (w2 & Hfail & _ & _ & Hlog2).
  simpl execute_sequential. unfold bind at 1. rewrite Hfail.
  exists w2,
    (e1 ++ (if verbose
            then [EvStderr (lit "# " ++ Invocation_str bad)] else [])).
  split; [done|]. split; [by rewrite Hlog2, Hlog1, <- app_assoc|].
  rewrite spawns_app, stdouts_app, Hsp1, Hout1.
  destruct verbose; simpl; by rewrite !app_nil_r.
Qed.

(** ** Arguments, file discovery and decoding *)

Lemma list_index_None x argv : list_index x argv = None <-> x ∉ argv.
Proof.
  induction argv as [|y rest IH]; simpl.
  - split; [intros _; apply not_elem_of_nil|done].
  - rewrite not_elem_of_cons.
    destruct (decide (y = x)) as [->|Hne].
    + split; [done|]. by intros [? _].
    + destruct (list_index x rest); simpl.
      * split; [done|]. intros [_ Hn]. by apply IH in Hn.
      * split; [|done]. intros _. split; [done|]. by apply IH.
Qed.

Lemma list_index_Some x argv i :
  list_index x argv = Some i ->
  (i < length argv)%nat /\ (x ∉ take i argv) /\
  argv = take i argv ++ x :: drop (S i) argv.
Proof.
  revert i. induction argv as [|y rest IH]; intros i; simpl; [done|].
  destruct (decide (y = x)) as [->|Hne].
  - intros [= <-]. simpl. rewrite drop_0.
    split; [lia|]. split; [apply not_elem_of_nil|done].
  - destruct (list_index x rest) as [j|]; simpl; [|done].
    intros [= <-]. destruct (IH j eq_refl) as (Hlt & Hnin & Heq).
    simpl. split; [lia|]. split.
    + rewrite not_elem_of_cons. split; [congruence|done].
    + by rewrite <- Heq.
Qed.

(** X14: [partition_args] never leaves [--] in its first component;
    without [--] the arguments come back whole, with no extra arguments;
    with one, the arguments are the first component, the first [--] and
    the second component. *)
Theorem partition_args_spec (argv : list str) :
  (lit "--" ∉ (partition_args argv).1) /\
  (lit "--" ∉ argv -> partition_args argv = (argv, [])) /\
  (lit "--" ∈ argv ->
   argv = (partition_args argv).1 ++ lit "--" :: (partition_args argv).2).
Proof.
  unfold partition_args.
  destruct (list_index (lit "--") argv) as [i|] eqn:Hi.
  - destruct (list_index_Some _ _ _ Hi) as (Hlt & Hnin & Heq).
    assert (slice_to (Z.of_nat i) argv = take i argv) as ->.
    { unfold slice_to. rewrite slice_index_nonneg by lia.
      f_equal. lia. }
    assert (slice_from (Z.of_nat i + 1) argv = drop (S i) argv) as ->.
    { unfold slice_from. rewrite slice_index_nonneg by lia.
      f_equal. lia. }
    simpl. split; [done|]. split; [|done].
    intros Hn. apply list_index_None in Hn. congruence.
  - apply list_index_None in Hi. simpl. split; [done|]. split; done.
Qed.


Lemma utf8_decode_N_cons b bs text :
  utf8_decode_N (b :: bs) = Some text -> text <> [].
Proof.
  simpl.
  repeat match goal with
         | |- context [if ?c then _ else _] => destruct c
         | |- context [match ?l with [] => _ | _ :: _ => _ end] =>
           destruct l
         end;
    try done;
    match goal with
    | |- context [utf8_decode_N ?l] => destruct (utf8_decode_N l)
    end; simpl; intros [= <-]; done.
Qed.

(** X16: the decoded output is the empty string exactly when the child
    wrote no byte at all. *)
Theorem utf8_decode_empty (raw : bytes) :
  utf8_decode raw = Some [] <-> raw = [].
Proof.
  split; [|by intros ->].
  unfold utf8_decode. destruct raw as [|b raw]; [done|]. simpl map.
  intros H. by apply utf8_decode_N_cons in H.
Qed.

Lemma utf8_decode_N_ascii (bs : list N) :
  Forall (fun b => (b < 0x80)%N) bs -> utf8_decode_N bs = Some bs.
Proof.
  induction 1 as [|b bs Hb _ IH]; [done|].
  simpl. destruct (N.ltb_spec b 0x80); [|lia]. by rewrite IH.
Qed.

(** X17: bytes below 0x80 decode to themselves: an ASCII output is
    relayed verbatim, code point for byte. *)
Theorem utf8_decode_ascii (raw : bytes) :
  Forall (fun b => (Byte.to_N b < 0x80)%N) raw ->
  utf8_decode raw = Some (map Byte.to_N raw).
Proof.
  intros Hall. unfold utf8_decode. apply utf8_decode_N_ascii.
  induction Hall; simpl; by constructor.
Qed.

(** X18: with a tool path configured and well-behaved children, [main]
    launches one process per scanned file, in scan order, with the
    command line [[tool, path]], and returns the fold of the merge rule
    over their exit statuses. *)
Theorem main_runs_every_source_file {L X} source_path tool verbose jobs
        (max_load_average : L) (extra_args : X) w :
  truthy (Some tool) = true ->
  1 <= jobs ->
  Forall well_behaved
         (outcomes (length (heap w))
                   (map (get_command tool) (scan source_path))) ->
  exists fuel0, forall fuel, (fuel0 <= fuel)%nat ->
    exists w' evs,
      main fuel source_path (Some tool) verbose jobs max_load_average
           extra_args w
      = Done (fold_exit_codes
                (out_status
                   <$> outcomes (length (heap w))
                         (map (get_command tool) (scan source_path))))
             w' /\
      log w' = log w ++ evs /\
      spawns evs
      = imap (fun i path => ((length (heap w) + i)%nat, [tool; path]))
             (scan source_path).
Proof.
  intros Htool Hjobs Hwb.
  exists (work_left (mkLoop (map (get_command tool) (scan source_path))
                            [] 0) w).
  intros fuel Hfuel. unfold main. rewrite Htool. simpl.
  destruct (execute_ok _ verbose jobs max_load_average w fuel
              Hjobs Hwb Hfuel)
    as (code & w' & evs & Hrun & Hlog & Hsp & _ & ->).
  exists w', evs. split; [exact Hrun|]. split; [done|].
  rewrite Hsp. unfold launches.
  change (map (get_command tool) (scan source_path))
    with (get_command tool <$> scan source_path).
  by rewrite imap_fmap.
Qed.

Lemma endswith_spec (s suffix : str) :
  endswith s suffix = true <-> exists stem, s = stem ++ suffix.
Proof.
  unfold endswith, str_eqb. rewrite andb_true_iff, bool_decide_eq_true.
  split.
  - intros [Hlen Heq]. apply Nat.leb_le in Hlen.
    exists (take (length s - length suffix) s).
    rewrite <- (take_drop (length s - length suffix) s) at 1.
    by rewrite Heq.
  - intros [stem ->]. rewrite length_app. split.
    + apply Nat.leb_le. lia.
    + replace (length stem + length suffix - length suffix)%nat
        with (length stem) by lia.
      by rewrite drop_app_length.
Qed.

Lemma os_path_join_suffix (a p : str) :
  exists stem, os_path_join a p = stem ++ p.
Proof.
  unfold os_path_join.
  destruct (startswith p (lit "/")); [by exists []|].
  destruct (negb (truthy (Some a)) || endswith a (lit "/")).
  - by exists a.
  - exists (a ++ lit "/"). by rewrite <- app_assoc.
Qed.

(** X19: every path that [main] hands to the tool ends in [.c], [.cc] or
    [.cpp]. *)
Theorem scan_paths_are_source_files source_path (p : str) :
  p ∈ scan source_path -> is_source_file p = true.
Proof.
  intros Hp. apply scan_member in Hp
    as (root & dirs & files & file & _ & _ & Hsrc & ->).
  destruct (os_path_join_suffix root file) as [stem ->].
  unfold is_source_file in *.
  rewrite !orb_true_iff in *. rewrite !endswith_spec in *.
  destruct Hsrc as [[[x ->]|[x ->]]|[x ->]].
  - left. left. exists (stem ++ x). by rewrite <- app_assoc.
  - left. right. exists (stem ++ x). by rewrite <- app_assoc.
  - right. exists (stem ++ x). by rewrite <- app_assoc.
Qed.

Lemma Process_start_cell inv w d st written :
  child (length (heap w)) (command inv) = Runs d st written ->
  exists w' p,
    Process_start inv w = Done (length (heap w)) w' /\
    log w' = log w ++ [EvSpawn (length (heap w)) (command inv)] /\
    heap w' !! length (heap w) = Some p /\
    finish p = (fun n => clock w + n)%nat <$> d /\
    output p = None /\ closed p = false /\
    (returncode p = None \/ is_Some (finish p)).
Proof.
  intros Hc. unfold Process_start. unfold bind at 1. unfold Popen.
  rewrite Hc.
  unfold bind at 1. unfold Popen_poll, bind at 1, deref. simpl.
  rewrite lookup_app_r, Nat.sub_diag by done. simpl.
  destruct d as [d|]; simpl.
  - destruct (clock w + d <=? clock w)%nat.
    + eexists _, _. unfold store, bind, ret. simpl.
      split; [reflexivity|]. simpl. split; [done|].
      split.
      { apply list_lookup_insert_eq. rewrite length_app. simpl. lia. }
      simpl. repeat split; eauto.
    + eexists _, _. split; [reflexivity|]. simpl. split; [done|].
      split; [by rewrite lookup_app_r, Nat.sub_diag by done|].
      simpl. repeat split; eauto.
  - eexists _, _. split; [reflexivity|]. simpl. split; [done|].
    split; [by rewrite lookup_app_r, Nat.sub_diag by done|].
    simpl. repeat split; eauto.
Qed.

(** X20: in the sequential regime a child that never terminates hangs
    the whole run: [execute] blocks in the [wait] of its first
    invocation, nothing is printed and no later invocation is started. *)
Theorem execute_sequential_hangs {L} inv rest verbose
        (max_load_average : L) fuel w st written :
  child (length (heap w)) (command inv) = Runs None st written ->
  exists w' evs,
    execute fuel (inv :: rest) verbose 1 max_load_average w = Blocked w' /\
    log w' = log w ++ evs /\
    spawns evs = [(length (heap w), command inv)] /\
    stdouts evs = [].
Proof.
  intros Hc.
  set (w0 := mkWorld (clock w) (heap w)
               (log w ++ (if verbose
                          then [EvStderr (lit "# " ++ Invocation_str inv)]
                          else []))).
  assert (Invocation_start inv verbose w = Process_start inv w0) as Hw0.
  { unfold Invocation_start, bind at 1. subst w0.
    destruct verbose; simpl; [done|].
    unfold ret. rewrite app_nil_r. by destruct w. }
  destruct (Process_start_cell inv w0 None st written Hc)
    as (w1 & p & Hstart & Hlog1 & Hp & Hfin & Hout & Hcl & Hrc).
  simpl in Hfin.
  assert (returncode p = None) as Hrc'.
  { destruct Hrc as [?|[t Ht]]; [done|congruence]. }
  unfold execute. simpl. unfold bind at 1. rewrite Hw0, Hstart.
  unfold bind at 1.
  rewrite (get_output_blocked w1 _ _ Hp)
    by (done || by rewrite Hout).
  eexists _, _. split; [reflexivity|]. simpl.
  split; [by rewrite Hlog1; subst w0; simpl; rewrite <- !app_assoc|].
  rewrite !spawns_app, !stdouts_app. by destruct verbose.
Qed.

(** X21: a non-empty output is computed once: the first [get_output]
    waits and reads, once each; the second returns the same text and
    leaves the world, log included, as it was. *)
Theorem get_output_nonempty_cached w h t st text :
  ready w h t st text -> text <> [] ->
  exists w1,
    get_output h w = Done text w1 /\
    log w1 = log w ++ [EvWait h; EvRead h] /\
    get_output h w1 = Done text w1.
Proof.
  intros Hr Hne.
  destruct (get_output_ready _ _ _ _ _ Hr)
    as (w1 & Hget & Hlog & _ & _ & _ & p' & Hp' & _ & Ho & _).
  exists w1. split; [done|]. split; [done|].
  destruct text as [|c s]; [done|].
  by apply get_output_cached with p'.
Qed.

End Program.

(** * Concrete runs *)

Example fold_all_zero : fold_exit_codes [0; 0; 0] = 0.
Proof. reflexivity. Qed.
Example fold_largest_failure : fold_exit_codes [0; 1; 2] = 2.
Proof. reflexivity. Qed.
Example fold_signal_wins : fold_exit_codes [0; -1; 2] = -1.
Proof. reflexivity. Qed.
Example fold_most_negative : fold_exit_codes [-1; -2; 0] = -2.
Proof. reflexivity. Qed.
Example fold_signal_kept : fold_exit_codes [-1; 1] = -1.
Proof. reflexivity. Qed.

Lemma worst_exit_code_spec_witness :
  worst_exit_code 5 (-3) = Z.min 5 (-3) /\
  worst_exit_code (-2) 7 = -2 /\
  worst_exit_code 1 2 = Z.max 1 2.
Proof.
  split; [|split].
  - apply (proj1 (worst_exit_code_spec 5 (-3))). lia.
  - apply (proj1 (proj2 (worst_exit_code_spec (-2) 7))); lia.
  - apply (proj2 (proj2 (worst_exit_code_spec 1 2))); lia.
Defined.

Lemma worst_exit_code_order_independent_witness :
  [0; -1; 2] ≡ₚ [2; 0; -1] /\
  fold_exit_codes [0; -1; 2] = fold_exit_codes [2; 0; -1].
Proof.
  assert (Hp : [0; -1; 2] ≡ₚ [2; 0; -1]).
  { etrans; [apply perm_skip, perm_swap|apply perm_swap]. }
  split; [exact Hp|].
  apply (proj2 (proj2 worst_exit_code_order_independent)), Hp.
Defined.

Example sample_world_reached :
  (Process_start sample_child (get_command (lit "tidy") (lit "a.c")) ;;
   Process_start sample_child (get_command (lit "tidy") (lit "b.cpp")))
    world0
  = Done 1%nat sample_world.
Proof. reflexivity. Qed.

Lemma sample_ready : ready sample_world 1%nat 0%nat 2 [].
Proof. eexists. repeat split; try reflexivity. by right. Qed.

Lemma sample_well_behaved :
  Forall well_behaved (outcomes sample_child 0%nat sample_invocations).
Proof. repeat constructor; by eexists. Qed.

(** C3 at its failing input: the second child writes nothing; the first
    [get_output()] on its handle returns the empty string, the second one
    raises instead of returning the cached text. *)
Example get_output_twice_empty_raises :
  (exists w1, get_output 1%nat sample_world = Done [] w1) /\
  (exists w2,
      (first <- get_output 1%nat ;; second <- get_output 1%nat ;;
       ret (first, second)) sample_world
      = Raised ValueError w2).
Proof. split; eexists; reflexivity. Qed.

Lemma get_output_empty_not_cached_witness :
  ready sample_world 1%nat 0%nat 2 [] /\
  exists w1,
    get_output 1%nat sample_world = Done [] w1 /\
    (exists p1, heap w1 !! 1%nat = Some p1 /\
                closed p1 = true /\ output p1 = Some []) /\
    get_output 1%nat w1
    = Raised ValueError
             (mkWorld (clock w1) (heap w1) (log w1 ++ [EvWait 1%nat])).
Proof.
  split; [exact sample_ready|].
  exact (get_output_empty_not_cached sample_world 1%nat 0%nat 2 sample_ready).
Defined.

Lemma execute_each_invocation_once_witness :
  1 <= 2 /\
  Forall well_behaved (outcomes sample_child 0%nat sample_invocations) /\
  exists fuel0, forall fuel, (fuel0 <= fuel)%nat ->
    exists code w' evs,
      execute sample_child fuel sample_invocations false 2 tt world0
      = Done code w' /\
      log w' = log world0 ++ evs /\
      spawns evs = launches 0%nat sample_invocations /\
      stdouts evs ≡ₚ out_text <$> outcomes sample_child 0%nat sample_invocations.
Proof.
  split; [lia|]. split; [exact sample_well_behaved|].
  apply (execute_each_invocation_once sample_child sample_invocations
           false 2 tt world0); [lia|exact sample_well_behaved].
Defined.

Lemma execute_sequential_output_order_witness :
  Forall well_behaved (outcomes sample_child 0%nat sample_invocations) /\
  exists code w' evs,
    execute sample_child 0%nat sample_invocations true 1 tt world0
    = Done code w' /\
    log w' = log world0 ++ evs /\
    spawns evs = launches 0%nat sample_invocations /\
    stdouts evs = out_text <$> outcomes sample_child 0%nat sample_invocations.
Proof.
  split; [exact sample_well_behaved|].
  exact (execute_sequential_output_order sample_child sample_invocations
           true tt 0%nat world0 sample_well_behaved).
Defined.

Lemma pending_never_exceeds_parallelism_witness :
  1 <= 2 /\
  (exists st' w',
      loop_body sample_child 2 false (mkLoop sample_invocations [] 0) world0
      = Done st' w' /\
      Z.of_nat (length (pending st')) <= 2) /\
  (exists evs,
      log (final (execute sample_child 10%nat sample_invocations false 2 tt
                          world0))
      = log world0 ++ evs /\
      peak 0 2 evs).
Proof.
  pose proof (pending_never_exceeds_parallelism (L:=unit) sample_child 2
                false ltac:(lia)) as [Hstep Hrun].
  split; [lia|]. split.
  - eexists _, _. split; [vm_compute; reflexivity|].
    eapply (Hstep (mkLoop sample_invocations [] 0) world0);
      [simpl; lia|vm_compute; reflexivity].
  - apply Hrun.
Defined.

(** C8 as stated fails: the first iteration of a run with a parallelism of
    two starts two processes and pauses all the same. *)
Lemma yields_only_when_idle_fails :
  ~ yields_only_when_idle sample_child 2 false
      (mkLoop sample_invocations [] 0) world0.
Proof.
  intros H.
  edestruct H as [Hs _].
  - vm_compute. reflexivity.
  - simpl. reflexivity.
  - apply list_elem_of_In. simpl. auto.
  - discriminate Hs.
Qed.

Lemma loop_body_always_yields_witness :
  exists st' w',
    loop_body sample_child 2 false (mkLoop sample_invocations [] 0) world0
    = Done st' w' /\
    exists evs, log w' = log world0 ++ evs ++ [EvSleep] /\ EvSleep ∉ evs.
Proof.
  eexists _, _. split; [vm_compute; reflexivity|].
  eapply (loop_body_always_yields sample_child 2 false
            (mkLoop sample_invocations [] 0)).
  vm_compute. reflexivity.
Defined.

Lemma main_without_tool_path_witness :
  truthy (Some []) = false /\
  exists w' evs,
    main sample_child sample_walk 5%nat (lit "src") (Some []) true 2 tt tt world0
    = Done 1 w' /\
    log w' = log world0 ++ evs /\
    evs = [EvStderr (lit "error: clang-tidy executable not found")] /\
    heap w' = heap world0 /\
    spawns evs = [] /\ stdouts evs = [].
Proof.
  split; [reflexivity|].
  exact (main_without_tool_path sample_child sample_walk 5%nat (lit "src")
           (Some []) true 2 tt tt world0 eq_refl).
Defined.

(** * Concrete runs of the further properties *)

Lemma fold_exit_codes_zero_witness :
  Forall (fun c => c = 0) [0; 0] /\ fold_exit_codes [0; 0] = 0.
Proof.
  assert (Forall (fun c => c = 0) [0; 0]) as H by (by repeat constructor).
  split; [exact H|]. exact (proj2 (fold_exit_codes_zero [0; 0]) H).
Defined.

Lemma fold_exit_codes_extreme_witness :
  Exists (fun c => c < 0) [1; -11; 2] /\
  Forall (fun c => 0 <= c) [1; 2] /\
  (fold_exit_codes [1; -11; 2] ∈ [1; -11; 2] /\
   forall c, c ∈ [1; -11; 2] -> fold_exit_codes [1; -11; 2] <= c) /\
  ((fold_exit_codes [1; 2] = 0 \/ fold_exit_codes [1; 2] ∈ [1; 2]) /\
   0 <= fold_exit_codes [1; 2] /\
   forall c, c ∈ [1; 2] -> c <= fold_exit_codes [1; 2]).
Proof.
  assert (Exists (fun c => c < 0) [1; -11; 2]) as H1.
  { apply Exists_cons_tl, Exists_cons_hd. lia. }
  assert (Forall (fun c => 0 <= c) [1; 2]) as H2.
  { repeat constructor; lia. }
  split; [exact H1|]. split; [exact H2|]. split.
  - exact (proj1 (fold_exit_codes_extreme [1; -11; 2]) H1).
  - exact (proj2 (fold_exit_codes_extreme [1; 2]) H2).
Defined.

Lemma execute_exit_code_witness :
  1 <= 2 /\
  Forall well_behaved (outcomes sample_child 0%nat sample_invocations) /\
  exists fuel0, forall fuel, (fuel0 <= fuel)%nat ->
    exists w',
      execute sample_child fuel sample_invocations false 2 tt world0
      = Done (fold_exit_codes
                (out_status
                   <$> outcomes sample_child 0%nat sample_invocations)) w'.
Proof.
  split; [lia|]. split; [exact sample_well_behaved|].
  apply (execute_exit_code sample_child sample_invocations false 2 tt
           world0); [lia|exact sample_well_behaved].
Defined.

Lemma execute_independent_of_jobs_and_verbose_witness :
  1 <= 1 /\ 1 <= 3 /\
  Forall well_behaved (outcomes sample_child 0%nat sample_invocations) /\
  exists fuel0, forall fuel, (fuel0 <= fuel)%nat ->
    exists code w1 w2 evs1 evs2,
      execute sample_child fuel sample_invocations false 1 tt world0
      = Done code w1 /\
      execute sample_child fuel sample_invocations true 3 tt world0
      = Done code w2 /\
      log w1 = log world0 ++ evs1 /\ log w2 = log world0 ++ evs2 /\
      stdouts evs1 ≡ₚ stdouts evs2 /\ spawns evs1 = spawns evs2.
Proof.
  split; [lia|]. split; [lia|]. split; [exact sample_well_behaved|].
  apply (execute_independent_of_jobs_and_verbose sample_child
           sample_invocations false true 1 3 tt world0);
    [lia|lia|exact sample_well_behaved].
Defined.

Lemma execute_nonpositive_jobs_never_returns_witness :
  0 <= 0 /\ sample_invocations <> [] /\
  execute sample_child 7%nat sample_invocations false 0 tt world0
  <> Done 0 world0.
Proof.
  split; [lia|]. split; [done|].
  apply (execute_nonpositive_jobs_never_returns sample_child 7%nat
           sample_invocations false 0 tt world0 0 world0); [lia|done].
Defined.

Lemma get_output_blocks_on_hung_child_witness :
  get_output 0%nat hung_world
  = Blocked (mkWorld (clock hung_world) (heap hung_world)
                     (log hung_world ++ [EvWait 0%nat])).
Proof.
  eapply (get_output_blocks_on_hung_child hung_world 0%nat); reflexivity.
Defined.

Lemma get_output_invalid_utf8_witness :
  exists w' p',
    get_output 0%nat garbled_world = Raised UnicodeDecodeError w' /\
    log w' = log garbled_world ++ [EvWait 0%nat; EvRead 0%nat] /\
    heap w' !! 0%nat = Some p' /\
    output p' = None /\ closed p' = false.
Proof.
  eapply (get_output_invalid_utf8 garbled_world 0%nat _ 0%nat);
    reflexivity.
Defined.

Lemma Process_poll_nonblocking_stable_witness :
  (1 < length (heap sample_world))%nat /\
  exists r w1,
    Process_poll 1%nat sample_world = Done r w1 /\
    clock w1 = clock sample_world /\ log w1 = log sample_world /\
    (forall rc, r = Some rc -> Process_poll 1%nat w1 = Done (Some rc) w1).
Proof.
  assert (1 < length (heap sample_world))%nat as H by (simpl; lia).
  split; [exact H|].
  exact (Process_poll_nonblocking_stable sample_world 1%nat H).
Defined.

Lemma Invocation_start_launch_failure_witness :
  failing_child (length (heap one_started_world))
                (command (get_command (lit "tidy") (lit "b.cpp")))
  = LaunchFails /\
  exists w',
    Invocation_start failing_child (get_command (lit "tidy") (lit "b.cpp"))
                     true one_started_world
    = Raised OSError w' /\
    heap w' = heap one_started_world /\
    clock w' = clock one_started_world /\
    log w'
    = log one_started_world
      ++ [EvStderr (lit "# " ++ Invocation_str
                        (get_command (lit "tidy") (lit "b.cpp")))].
Proof.
  split; [reflexivity|].
  exact (Invocation_start_launch_failure failing_child
           (get_command (lit "tidy") (lit "b.cpp")) true
           one_started_world eq_refl).
Defined.

Lemma Invocation_start_events_witness :
  exists w',
    Invocation_start sample_child (get_command (lit "tidy") (lit "a.c"))
                     true world0
    = Done (length (heap world0)) w' /\
    length (heap w') = S (length (heap world0)) /\
    log w'
    = log world0
      ++ [EvStderr (lit "# " ++ join (lit " ") [lit "tidy"; lit "a.c"])]
      ++ [EvSpawn (length (heap world0)) [lit "tidy"; lit "a.c"]].
Proof.
  apply (Invocation_start_events sample_child
           (get_command (lit "tidy") (lit "a.c")) true world0
           (Runs (Some 3%nat) 0 ["a"%byte]) eq_refl).
  by eexists _, _, _.
Defined.

Lemma execute_sequential_launch_failure_witness :
  Forall well_behaved
         (outcomes failing_child 0%nat
                   [get_command (lit "tidy") (lit "a.c")]) /\
  exists w' evs,
    execute failing_child 0%nat
            ([get_command (lit "tidy") (lit "a.c")]
               ++ get_command (lit "tidy") (lit "b.cpp")
               :: [get_command (lit "tidy") (lit "c.cc")])
            false 1 tt world0
    = Raised OSError w' /\
    log w' = log world0 ++ evs /\
    spawns evs = launches 0%nat [get_command (lit "tidy") (lit "a.c")] /\
    stdouts evs
    = out_text <$> outcomes failing_child 0%nat
                     [get_command (lit "tidy") (lit "a.c")].
Proof.
  assert (Forall well_behaved
                 (outcomes failing_child 0%nat
                           [get_command (lit "tidy") (lit "a.c")])) as H.
  { repeat constructor. by eexists. }
  split; [exact H|].
  exact (execute_sequential_launch_failure failing_child
           [get_command (lit "tidy") (lit "a.c")]
           (get_command (lit "tidy") (lit "b.cpp"))
           [get_command (lit "tidy") (lit "c.cc")]
           false tt 0%nat world0 H eq_refl).
Defined.

Lemma partition_args_spec_witness :
  lit "--" ∈ sample_argv /\
  (lit "--" ∉ [lit "-v"]) /\
  partition_args [lit "-v"] = ([lit "-v"], []) /\
  sample_argv
  = (partition_args sample_argv).1
    ++ lit "--" :: (partition_args sample_argv).2.
Proof.
  assert (lit "--" ∈ sample_argv) as Hin.
  { apply list_elem_of_In. simpl. auto. }
  assert (lit "--" ∉ [lit "-v"]) as Hnin.
  { intros H. apply list_elem_of_singleton in H. discriminate H. }
  split; [exact Hin|]. split; [exact Hnin|]. split.
  - exact (proj1 (proj2 (partition_args_spec [lit "-v"])) Hnin).
  - exact (proj2 (proj2 (partition_args_spec sample_argv)) Hin).
Defined.

Lemma sample_scan :
  scan sample_walk (lit "src")
  = [lit "src/a.c"; lit "src/b.cpp"; lit "src/sub/c.cc"].
Proof. reflexivity. Qed.

Lemma sample_scan_member :
  lit "src/sub/c.cc" ∈ scan sample_walk (lit "src").
Proof. apply list_elem_of_In. vm_compute. auto. Qed.


Lemma utf8_decode_empty_witness : utf8_decode [] = Some [].
Proof. exact (proj2 (utf8_decode_empty []) eq_refl). Defined.

Lemma utf8_decode_ascii_witness :
  Forall (fun b => (Byte.to_N b < 0x80)%N) ["o"%byte; "k"%byte] /\
  utf8_decode ["o"%byte; "k"%byte]
  = Some (map Byte.to_N ["o"%byte; "k"%byte]).
Proof.
  assert (Forall (fun b => (Byte.to_N b < 0x80)%N)
                 ["o"%byte; "k"%byte]) as H.
  { repeat constructor; simpl; lia. }
  split; [exact H|]. exact (utf8_decode_ascii _ H).
Defined.

Lemma sample_main_well_behaved :
  Forall well_behaved
         (outcomes sample_child 0%nat
                   (map (get_command (lit "tidy"))
                        (scan sample_walk (lit "src")))).
Proof. repeat constructor; by eexists. Qed.

Lemma main_runs_every_source_file_witness :
  truthy (Some (lit "tidy")) = true /\ 1 <= 2 /\
  exists fuel0, forall fuel, (fuel0 <= fuel)%nat ->
    exists w' evs,
      main sample_child sample_walk fuel (lit "src") (Some (lit "tidy"))
           false 2 tt tt world0
      = Done (fold_exit_codes
                (out_status
                   <$> outcomes sample_child (length (heap world0))
                         (map (get_command (lit "tidy"))
                              (scan sample_walk (lit "src")))))
             w' /\
      log w' = log world0 ++ evs /\
      spawns evs
      = imap (fun i path =>
                ((length (heap world0) + i)%nat, [lit "tidy"; path]))
             (scan sample_walk (lit "src")).
Proof.
  split; [reflexivity|]. split; [lia|].
  apply (main_runs_every_source_file sample_child sample_walk (lit "src")
           (lit "tidy") false 2 tt tt world0 eq_refl);
    [lia|exact sample_main_well_behaved].
Defined.

Lemma scan_paths_are_source_files_witness :
  lit "src/sub/c.cc" ∈ scan sample_walk (lit "src") /\
  is_source_file (lit "src/sub/c.cc") = true.
Proof.
  split; [exact sample_scan_member|].
  exact (scan_paths_are_source_files sample_walk (lit "src")
           (lit "src/sub/c.cc") sample_scan_member).
Defined.

Lemma execute_sequential_hangs_witness :
  exists w' evs,
    execute hung_child 0%nat sample_invocations false 1 tt world0
    = Blocked w' /\
    log w' = log world0 ++ evs /\
    spawns evs = [(length (heap world0), [lit "tidy"; lit "a.c"])] /\
    stdouts evs = [].
Proof.
  exact (execute_sequential_hangs hung_child
           (get_command (lit "tidy") (lit "a.c"))
           [get_command (lit "tidy") (lit "b.cpp");
            get_command (lit "tidy") (lit "c.cc")]
           false tt 0%nat world0 0 [] eq_refl).
Defined.

Lemma sample_ready_first : ready sample_world 0%nat 3%nat 0 (lit "a").
Proof. eexists. repeat split; try reflexivity. by left. Qed.

Lemma get_output_nonempty_cached_witness :
  ready sample_world 0%nat 3%nat 0 (lit "a") /\ lit "a" <> [] /\
  exists w1,
    get_output 0%nat sample_world = Done (lit "a") w1 /\
    log w1 = log sample_world ++ [EvWait 0%nat; EvRead 0%nat] /\
    get_output 0%nat w1 = Done (lit "a") w1.
Proof.
  split; [exact sample_ready_first|]. split; [done|].
  apply (get_output_nonempty_cached sample_world 0%nat 3%nat 0 (lit "a")
           sample_ready_first).
  done.
Defined.
